(** * tts-service: the WebSocket protocol and the streaming pipeline

    A shallow embedding of [core/tts.py], [core/websocket_server.py] and
    [app.py].  Python objects that travel over the wire are JSON values; the
    collaborators the repository does not implement (the [json], [uuid],
    [tempfile], [os] and [base64] modules, the event-loop clock, the
    [pyttsx3] engine and the websocket transport) are gathered in one record
    of oracles, [Env]; every effect of the code is a transition of [world]
    inside a small state-and-exception monad. *)

From Stdlib Require Import String Ascii ZArith QArith List.
From stdpp Require Import base option list gmap strings.
Import ListNotations.
Close Scope Q_scope.
Open Scope string_scope.
Open Scope Z_scope.
Open Scope list_scope.

(** ** Python values *)

(** A Python [str] is kept as its UTF-8 encoding; [bytes] is a list of
    bytes. *)
Definition bytes := list Byte.byte.

(** The values [json.loads] produces and [json.dumps] accepts.  A [dict]
    keeps insertion order, hence the association list. *)
#[warnings="-register-all"]
Inductive json : Type :=
| JNull
| JBool (b : bool)
| JInt (z : Z)
| JFloat (q : Q)
| JStr (s : string)
| JList (l : list json)
| JObj (o : list (string * json)).

(** [d.get(key)] on the items of a [dict]. *)
Fixpoint assoc (key : string) (o : list (string * json)) : option json :=
  match o with
  | [] => None
  | (k, v) :: o' => if String.eqb k key then Some v else assoc key o'
  end.

(** [m[key]] read off a message; [None] when [m] is no object or lacks the
    key. *)
Definition field (key : string) (m : json) : option json :=
  match m with
  | JObj o => assoc key o
  | _ => None
  end.

Definition has_field (key : string) (m : json) : bool :=
  match field key m with Some _ => true | None => false end.

(** [type(v).__name__]. *)
Definition type_name (v : json) : string :=
  match v with
  | JNull => "NoneType"
  | JBool _ => "bool"
  | JInt _ => "int"
  | JFloat _ => "float"
  | JStr _ => "str"
  | JList _ => "list"
  | JObj _ => "dict"
  end.

(** [v == s] for a string literal [s]: only a [str] can be equal to it. *)
Definition eq_str (v : json) (s : string) : bool :=
  match v with
  | JStr t => String.eqb t s
  | _ => false
  end.

(** [not v]: Python's truth value testing on JSON values. *)
Definition falsy (v : json) : bool :=
  match v with
  | JNull => true
  | JBool b => negb b
  | JInt z => Z.eqb z 0
  | JFloat q => Z.eqb (Qnum q) 0
  | JStr s => match s with EmptyString => true | _ => false end
  | JList l => match l with [] => true | _ => false end
  | JObj o => match o with [] => true | _ => false end
  end.

(** *** Code points *)

(** [len] and [strip] work on code points.  [decode_utf8 pending acc bs]
    reads the bytes [bs]; [pending] continuation bytes of the code point
    accumulated in [acc] are still expected. *)
Fixpoint decode_utf8 (pending : nat) (acc : N) (bs : list N) : list N :=
  match bs with
  | [] => []
  | b :: rest =>
      match pending with
      | O =>
          if (b <? 128)%N then b :: decode_utf8 0 0%N rest
          else if (b <? 224)%N then decode_utf8 1 (b mod 32)%N rest
          else if (b <? 240)%N then decode_utf8 2 (b mod 16)%N rest
          else decode_utf8 3 (b mod 8)%N rest
      | S k =>
          let acc' := (acc * 64 + b mod 64)%N in
          match k with
          | O => acc' :: decode_utf8 0 0%N rest
          | S _ => decode_utf8 k acc' rest
          end
      end
  end.

Definition code_points (s : string) : list N :=
  decode_utf8 0 0%N (map N_of_ascii (list_ascii_of_string s)).

(** [len(s)] *)
Definition len (s : string) : Z := Z.of_nat (length (code_points s)).

(** [c.isspace()] for one code point: the white-space table of CPython's
    Unicode database. *)
Definition isspace (c : N) : bool :=
  ((9 <=? c) && (c <=? 13) || (28 <=? c) && (c <=? 32)
   || (c =? 133) || (c =? 160) || (c =? 5760)
   || (8192 <=? c) && (c <=? 8202)
   || (c =? 8232) || (c =? 8233) || (c =? 8239) || (c =? 8287)
   || (c =? 12288))%N.

Fixpoint lstrip (cs : list N) : list N :=
  match cs with
  | c :: cs' => if isspace c then lstrip cs' else cs
  | [] => []
  end.

(** [s.strip()], as code points. *)
Definition strip (s : string) : list N :=
  rev (lstrip (rev (lstrip (code_points s)))).

(** [len(s.strip())] *)
Definition len_strip (s : string) : Z := Z.of_nat (length (strip s)).

(** ** Exceptions *)

Inductive exn : Type :=
| JSONDecodeError
| AttributeError (type_ attr : string)
| ConnectionClosed (reason : string)
| RecursionError (msg : string)
| ValueError (msg : string)
| UnicodeDecodeError (msg : string).

(** [str(e)] *)
Definition exn_str (ex : exn) : string :=
  match ex with
  | JSONDecodeError => "Expecting value"
  | AttributeError t a =>
      "'" ++ t ++ "' object has no attribute '" ++ a ++ "'"
  | ConnectionClosed r => r
  | RecursionError msg | ValueError msg | UnicodeDecodeError msg => msg
  end.

(** ** The collaborators *)

(** What one run of the engine ([save_to_file] followed by [runAndWait])
    leaves behind: whether it raised, and the scratch file afterwards
    ([None]: no file at that path). *)
Record engine_result : Type := EngineResult {
  raised : bool;
  artifact : option bytes
}.

(** An entry of [engine.getProperty('voices')]. *)
Record voice : Type := Voice { voice_id : string; voice_name : string }.

Record Env : Type := {
  (** [json.loads]; [None] when it raises *)
  json_loads : string -> option json;
  (** the exception [json.loads] raises on a payload it does not decode:
      [json.JSONDecodeError] for a text that is not JSON, [RecursionError]
      for one nested too deep, [ValueError] for an integer of too many
      digits, [UnicodeDecodeError] for a binary frame that is not UTF-8 *)
  json_error : string -> exn;
  (** [str(uuid.uuid4())], by the number of earlier calls *)
  uuid4 : nat -> string;
  (** [asyncio.get_event_loop().time()], by the number of earlier readings *)
  loop_time : nat -> Q;
  (** [websocket.send], by the number of earlier attempts: [None] when the
      frame is written, [Some reason] when the call raises *)
  transport : nat -> option string;
  (** [base64.b64encode(b).decode('utf-8')] *)
  b64encode : bytes -> string;
  (** [str(v)] of a value that is no [str], as an f-string formats it *)
  repr : json -> string;
  (** [tempfile.NamedTemporaryFile(suffix='.wav', delete=False)], by the
      number of earlier calls: the new file's name, [None] when it raises *)
  named_temporary_file : nat -> option string;
  (** the engine, by the number of earlier runs and the text *)
  engine : nat -> string -> engine_result;
  (** whether [os.unlink] of a path succeeds *)
  unlink_ok : string -> bool;
  (** [self.engine.getProperty('voices')] *)
  voices : list voice
}.

(** ** config/settings.py *)

Module settings.

Definition HOST : string := "0.0.0.0".
Definition PORT : Z := 8765.
Definition RATE : Z := 150.
Definition VOLUME : Q := (9 # 10)%Q.
Definition VOICE_INDEX : Z := 0.
Definition CHUNK_SIZE : Z := 4096.
Definition MAX_MESSAGE_SIZE : Z := 10 * 1024 * 1024.

End settings.

(** ** The generator object of [text_to_speech_stream]

    An async generator is suspended at one of its [yield]s between two
    calls of [__anext__]; the constructors name the places. *)
Inductive generator : Type :=
| Created (text : string) (chunk_size : Z)
    (** not started *)
| AtBlank
    (** at the [yield b""] of the blank-text guard *)
| AtChunk (temp_filename : string) (chunk_size : Z) (unread : bytes)
    (** at [yield chunk]; the scratch file is open, [unread] lies ahead *)
| AtMissing (temp_filename : string)
    (** at the [yield b""] of the missing-file branch *)
| AtError (temp_filename : option string)
    (** at the [yield b""] of the [except] clause *)
| Finished.

(** ** The process state *)

Record world : Type := World {
  (** frames written to the websocket, oldest first *)
  sent : list json;
  (** calls of [websocket.send] so far *)
  writes : nat;
  (** the file system, the log file apart: path to contents.  What the
      logging handlers append to the log file is not followed. *)
  fs : gmap string bytes;
  (** engine runs, temporary files, clock readings and uuids so far *)
  engine_runs : nat;
  temp_files : nat;
  clock_reads : nat;
  uuids : nat;
  (** generators dropped while suspended; the event loop closes them later *)
  abandoned : list generator;
  (** [TTSWebSocketServer.active_connections]: id to [connected_at] *)
  active_connections : gmap string Q;
  (** the [websockets.serve] context of [start_server] is entered *)
  serving : bool;
  (** [self.engine.stop()] has been called *)
  engine_stopped : bool;
  (** [TTSService.is_running] *)
  is_running : bool;
  (** [sys.exit] has been called with this status *)
  exit_status : option Z
}.

Definition with_sent (x : list json) (nw : nat) (w : world) : world :=
  World x nw (fs w) (engine_runs w) (temp_files w) (clock_reads w) (uuids w)
    (abandoned w) (active_connections w) (serving w) (engine_stopped w)
    (is_running w) (exit_status w).

Definition with_fs (x : gmap string bytes) (w : world) : world :=
  World (sent w) (writes w) x (engine_runs w) (temp_files w) (clock_reads w)
    (uuids w) (abandoned w) (active_connections w) (serving w)
    (engine_stopped w) (is_running w) (exit_status w).

Definition with_engine_runs (x : nat) (w : world) : world :=
  World (sent w) (writes w) (fs w) x (temp_files w) (clock_reads w) (uuids w)
    (abandoned w) (active_connections w) (serving w) (engine_stopped w)
    (is_running w) (exit_status w).

Definition with_temp_files (x : nat) (w : world) : world :=
  World (sent w) (writes w) (fs w) (engine_runs w) x (clock_reads w) (uuids w)
    (abandoned w) (active_connections w) (serving w) (engine_stopped w)
    (is_running w) (exit_status w).

Definition with_clock_reads (x : nat) (w : world) : world :=
  World (sent w) (writes w) (fs w) (engine_runs w) (temp_files w) x (uuids w)
    (abandoned w) (active_connections w) (serving w) (engine_stopped w)
    (is_running w) (exit_status w).

Definition with_uuids (x : nat) (w : world) : world :=
  World (sent w) (writes w) (fs w) (engine_runs w) (temp_files w)
    (clock_reads w) x (abandoned w) (active_connections w) (serving w)
    (engine_stopped w) (is_running w) (exit_status w).

Definition with_abandoned (x : list generator) (w : world) : world :=
  World (sent w) (writes w) (fs w) (engine_runs w) (temp_files w)
    (clock_reads w) (uuids w) x (active_connections w) (serving w)
    (engine_stopped w) (is_running w) (exit_status w).

Definition with_active_connections (x : gmap string Q) (w : world) : world :=
  World (sent w) (writes w) (fs w) (engine_runs w) (temp_files w)
    (clock_reads w) (uuids w) (abandoned w) x (serving w) (engine_stopped w)
    (is_running w) (exit_status w).

Definition with_serving (x : bool) (w : world) : world :=
  World (sent w) (writes w) (fs w) (engine_runs w) (temp_files w)
    (clock_reads w) (uuids w) (abandoned w) (active_connections w) x
    (engine_stopped w) (is_running w) (exit_status w).

Definition with_engine_stopped (x : bool) (w : world) : world :=
  World (sent w) (writes w) (fs w) (engine_runs w) (temp_files w)
    (clock_reads w) (uuids w) (abandoned w) (active_connections w) (serving w)
    x (is_running w) (exit_status w).

Definition with_is_running (x : bool) (w : world) : world :=
  World (sent w) (writes w) (fs w) (engine_runs w) (temp_files w)
    (clock_reads w) (uuids w) (abandoned w) (active_connections w) (serving w)
    (engine_stopped w) x (exit_status w).

Definition with_exit_status (x : option Z) (w : world) : world :=
  World (sent w) (writes w) (fs w) (engine_runs w) (temp_files w)
    (clock_reads w) (uuids w) (abandoned w) (active_connections w) (serving w)
    (engine_stopped w) (is_running w) x.

(** A process that has just started: nothing sent, an empty file system. *)
Definition boot : world :=
  World [] 0 ∅ 0 0 0 0 [] ∅ false false false None.

(** ** Coroutines: state and exceptions *)

Inductive result (A : Type) : Type :=
| Ok (a : A)
| Raise (ex : exn).
Arguments Ok {A} a.
Arguments Raise {A} ex.

Definition M (A : Type) : Type := world -> result A * world.

Definition ret {A} (a : A) : M A := fun w => (Ok a, w).

Definition raise {A} (ex : exn) : M A := fun w => (Raise ex, w).

Definition bind {A B} (c : M A) (k : A -> M B) : M B :=
  fun w =>
    match c w with
    | (Ok a, w') => k a w'
    | (Raise ex, w') => (Raise ex, w')
    end.

(** [try: c  except Exception as ex: h ex] *)
Definition try_except {A} (c : M A) (h : exn -> M A) : M A :=
  fun w =>
    match c w with
    | (Ok a, w') => (Ok a, w')
    | (Raise ex, w') => h ex w'
    end.

(** [try: c  finally: f], for a clean-up [f] that does not raise *)
Definition try_finally {A} (c : M A) (f : world -> world) : M A :=
  fun w => let '(r, w') := c w in (r, f w').

Declare Scope coroutine_scope.
Delimit Scope coroutine_scope with co.
Notation "x <- c ;; k" := (bind c (fun x => k))
  (at level 100, c at next level, right associativity) : coroutine_scope.
Notation "c ;;; k" := (bind c (fun _ => k))
  (at level 100, right associativity) : coroutine_scope.
Open Scope coroutine_scope.

(** [await websocket.send(json.dumps(m))] *)
Definition send (e : Env) (m : json) : M unit :=
  fun w =>
    match transport e (writes w) with
    | None => (Ok tt, with_sent (sent w ++ [m]) (S (writes w)) w)
    | Some reason =>
        (Raise (ConnectionClosed reason), with_sent (sent w) (S (writes w)) w)
    end.

(** [asyncio.get_event_loop().time()] *)
Definition time (e : Env) : M Q :=
  fun w => (Ok (loop_time e (clock_reads w)),
            with_clock_reads (S (clock_reads w)) w).

(** [str(uuid.uuid4())] *)
Definition new_uuid (e : Env) : M string :=
  fun w => (Ok (uuid4 e (uuids w)), with_uuids (S (uuids w)) w).

(** ** core/tts.py *)

(** [len(b)] of a [bytes] object *)
Definition blen (b : bytes) : Z := Z.of_nat (length b).

(** [f.read(size)] on what is still unread: the block and the rest.  A
    negative size reads to the end of the file. *)
Definition read (size : Z) (unread : bytes) : bytes * bytes :=
  if size <? 0 then (unread, [])
  else (take (Z.to_nat size) unread, drop (Z.to_nat size) unread).

(** The [finally] clause of [text_to_speech_stream]: the scratch file is
    unlinked when it is there; a failing [os.unlink] is logged and
    swallowed. *)
Definition cleanup (e : Env) (temp_filename : option string) (w : world)
  : world :=
  match temp_filename with
  | Some f =>
      if negb (falsy (JStr f)) && bool_decide (is_Some (fs w !! f)) then
        if unlink_ok e f then with_fs (delete f (fs w)) w else w
      else w
  | None => w
  end.

(** One turn of the reading loop, up to the next [yield chunk] or, at the
    end of the file, through the [finally] clause. *)
Definition read_next (e : Env) (f : string) (chunk_size : Z) (unread : bytes)
    (w : world) : option bytes * generator * world :=
  let '(chunk, rest) := read chunk_size unread in
  match chunk with
  | [] => (None, Finished, cleanup e (Some f) w)
  | _ :: _ => (Some chunk, AtChunk f chunk_size rest, w)
  end.

(** The nested [synthesize()], run in the executor under [self.lock]: its
    [try] swallows whatever the engine raises. *)
Definition synthesize (e : Env) (text temp_filename : string) (w : world)
  : world :=
  let r := engine e (engine_runs w) text in
  with_engine_runs (S (engine_runs w))
    (with_fs (match artifact r with
              | Some audio => <[temp_filename := audio]> (fs w)
              | None => delete temp_filename (fs w)
              end) w).

(** [__anext__] on the generator of [text_to_speech_stream]: runs it to its
    next [yield] ([Some] of the block) or to its end ([None], that is
    [StopAsyncIteration]). *)
Definition anext (e : Env) (g : generator) (w : world)
  : option bytes * generator * world :=
  match g with
  | Created text chunk_size =>
      if falsy (JStr text) || (len_strip text <? 1) then
        (Some [], AtBlank, w)
      else
        match named_temporary_file e (temp_files w) with
        | None => (Some [], AtError None, with_temp_files (S (temp_files w)) w)
        | Some temp_filename =>
            let w1 := with_fs (<[temp_filename := []]> (fs w))
                        (with_temp_files (S (temp_files w)) w) in
            let w2 := synthesize e text temp_filename w1 in
            match fs w2 !! temp_filename with
            | Some content => read_next e temp_filename chunk_size content w2
            | None => (Some [], AtMissing temp_filename, w2)
            end
        end
  | AtBlank => (None, Finished, w)
  | AtChunk f chunk_size unread => read_next e f chunk_size unread w
  | AtMissing f => (None, Finished, cleanup e (Some f) w)
  | AtError temp_filename => (None, Finished, cleanup e temp_filename w)
  | Finished => (None, Finished, w)
  end.

(** [text_to_speech_stream(text)] only creates the generator object. *)
Definition text_to_speech_stream (text : string) : generator :=
  Created text settings.CHUNK_SIZE.

(** [aclose()]: [GeneratorExit] is thrown in at the [yield] where the
    generator is suspended; [except Exception] does not catch it, the
    [finally] clause runs when the [yield] is inside the [try]. *)
Definition aclose (e : Env) (g : generator) (w : world) : world :=
  match g with
  | AtChunk f _ _ => cleanup e (Some f) w
  | AtMissing f => cleanup e (Some f) w
  | AtError temp_filename => cleanup e temp_filename w
  | Created _ _ | AtBlank | Finished => w
  end.

(** What the event loop's finaliser hook does, some time later, with the
    generators that were dropped while suspended. *)
Definition close_abandoned (e : Env) (w : world) : world :=
  with_abandoned [] (fold_right (aclose e) w (abandoned w)).

Definition start_message (request_id : json) (text : string) (t : Q) : json :=
  JObj [("type", JStr "synthesis_start");
        ("request_id", request_id);
        ("text_length", JInt (len text));
        ("timestamp", JFloat t)].

Definition chunk_message (e : Env) (request_id : json) (chunk_index : Z)
    (audio_chunk : bytes) (total_size : Z) : json :=
  JObj [("type", JStr "audio_chunk");
        ("request_id", request_id);
        ("chunk_index", JInt chunk_index);
        ("audio_data", JStr (b64encode e audio_chunk));
        ("chunk_size", JInt (blen audio_chunk));
        ("total_size", JInt total_size);
        ("is_final", JBool false)].

Definition end_message (request_id : json) (chunk_index total_size : Z)
    (t : Q) : json :=
  JObj [("type", JStr "synthesis_complete");
        ("request_id", request_id);
        ("total_chunks", JInt chunk_index);
        ("total_size", JInt total_size);
        ("timestamp", JFloat t)].

Definition error_message (request_id : json) (message : string) (t : Q)
  : json :=
  JObj [("type", JStr "error");
        ("request_id", request_id);
        ("message", JStr message);
        ("timestamp", JFloat t)].

(** The [async for] loop of [synthesize_and_stream].  An exception of
    [websocket.send] leaves the loop with the generator still suspended:
    nothing closes it here, it is dropped.  [fuel] bounds the iterations;
    [steps_left] below is enough of it. *)
Fixpoint async_for (e : Env) (fuel : nat) (g : generator) (request_id : json)
    (chunk_index total_size : Z) : M (Z * Z) :=
  match fuel with
  | O => ret (chunk_index, total_size)
  | S fuel' =>
      fun w =>
        let '(item, g', w1) := anext e g w in
        match item with
        | None => (Ok (chunk_index, total_size), w1)
        | Some [] => async_for e fuel' g' request_id chunk_index total_size w1
        | Some audio_chunk =>
            let chunk_index := chunk_index + 1 in
            let total_size := total_size + blen audio_chunk in
            match send e (chunk_message e request_id chunk_index audio_chunk
                            total_size) w1 with
            | (Ok _, w2) =>
                async_for e fuel' g' request_id chunk_index total_size w2
            | (Raise ex, w2) =>
                (Raise ex, with_abandoned (g' :: abandoned w2) w2)
            end
        end
  end.

(** The calls of [__anext__] a generator can still take, the last one
    (which ends it) included. *)
Definition steps_left (e : Env) (g : generator) (w : world) : nat :=
  match g with
  | Created text _ =>
      S (S (match artifact (engine e (engine_runs w) text) with
            | Some audio => length audio
            | None => 0%nat
            end))
  | AtChunk _ _ unread => S (length unread)
  | AtBlank | AtMissing _ | AtError _ | Finished => 1%nat
  end.

(** The [try] block of [synthesize_and_stream]. *)
Definition stream (e : Env) (text : string) (request_id : json) : M unit :=
  t <- time e ;;
  send e (start_message request_id text t) ;;;
  totals <- (fun w =>
               let g := text_to_speech_stream text in
               async_for e (steps_left e g w) g request_id 0 0 w) ;;
  t <- time e ;;
  send e (end_message request_id (fst totals) (snd totals) t).

Definition synthesize_and_stream (e : Env) (text : string) (request_id : json)
  : M unit :=
  try_except (stream e text request_id)
    (fun ex =>
       t <- time e ;;
       send e (error_message request_id
                 ("音频流发送失败: " ++ exn_str ex) t)).

(** [SpeechSynthesizer], with the fields [get_voice_info] reads. *)
Record SpeechSynthesizer : Type := {
  rate : Z;
  volume : Q;
  voice_index : Z
}.

(** [l[i]] where the code has checked [len(l) > i]; an index counts from
    the end when negative. *)
Definition subscript {A} (l : list A) (i : Z) : option A :=
  if i <? 0 then
    if Z.of_nat (length l) + i <? 0 then None
    else l !! Z.to_nat (Z.of_nat (length l) + i)
  else l !! Z.to_nat i.

Fixpoint enumerate_voices (i : Z) (vs : list voice) : list json :=
  match vs with
  | [] => []
  | v :: vs' =>
      JObj [("id", JInt i); ("name", JStr (voice_name v))]
      :: enumerate_voices (i + 1) vs'
  end.

Definition get_voice_info (e : Env) (self : SpeechSynthesizer) : json :=
  let voices := voices e in
  let current_voice :=
    if negb (bool_decide (voices = [])) &&
       (Z.of_nat (length voices) >? voice_index self)
    then subscript voices (voice_index self)
    else None in
  JObj [("rate", JInt (rate self));
        ("volume", JFloat (volume self));
        ("voice_index", JInt (voice_index self));
        ("current_voice",
          JStr (match current_voice with
                | Some v => voice_name v
                | None => "Unknown"
                end));
        ("available_voices", JInt (Z.of_nat (length voices)));
        ("voices", JList (enumerate_voices 0 voices))].

(** ** core/websocket_server.py *)

(** [self.tts_engine = SpeechSynthesizer()]: the defaults of the settings. *)
Definition tts_engine : SpeechSynthesizer :=
  {| rate := settings.RATE;
     volume := settings.VOLUME;
     voice_index := settings.VOICE_INDEX |}.

Definition welcome_msg (e : Env) (connection_id : string) (t : Q) : json :=
  JObj [("type", JStr "welcome");
        ("connection_id", JStr connection_id);
        ("service", JStr "流式语音合成服务");
        ("version", JStr "1.0.0");
        ("supported_formats", JList [JStr "wav"]);
        ("voice_info", get_voice_info e tts_engine);
        ("timestamp", JFloat t)].

Definition _send_welcome_message (e : Env) (connection_id : string) : M unit :=
  t <- time e ;;
  send e (welcome_msg e connection_id t).

Definition voice_info_response (e : Env) (request_id : json) (t : Q) : json :=
  JObj [("type", JStr "voice_info");
        ("request_id", request_id);
        ("data", get_voice_info e tts_engine);
        ("timestamp", JFloat t)].

Definition _send_voice_info (e : Env) (request_id : json) : M unit :=
  t <- time e ;;
  send e (voice_info_response e request_id t).

Definition pong_response (request_id : json) (t : Q) : json :=
  JObj [("type", JStr "pong");
        ("request_id", request_id);
        ("timestamp", JFloat t)].

Definition _send_pong (e : Env) (request_id : json) : M unit :=
  t <- time e ;;
  send e (pong_response request_id t).

Definition _send_error (e : Env) (message : string) (request_id : json)
  : M unit :=
  t <- time e ;;
  send e (error_message request_id message t).

(** [_handle_synthesis_request].  The value of the [text] field is whatever
    the client put there: [text.strip()] raises on a true value that is no
    [str]. *)
Definition _handle_synthesis_request (e : Env) (text request_id : json)
  : M unit :=
  match text with
  | JStr s =>
      if falsy text || (len_strip s =? 0) then
        _send_error e "文本内容不能为空" request_id
      else if len s >? 10000 then
        _send_error e "文本长度超过限制(10000字符)" request_id
      else
        synthesize_and_stream e s request_id
  | _ =>
      if falsy text then _send_error e "文本内容不能为空" request_id
      else raise (AttributeError (type_name text) "strip")
  end.

(** [data.get(key, default)]; only a [dict] has the method. *)
Definition get (data : json) (key : string) (default : json) : M json :=
  match data with
  | JObj o =>
      ret (match assoc key o with Some v => v | None => default end)
  | _ => raise (AttributeError (type_name data) "get")
  end.

(** [f"{v}"] *)
Definition format (e : Env) (v : json) : string :=
  match v with
  | JStr s => s
  | _ => repr e v
  end.

(** The [try] block of [_handle_message]. *)
Definition dispatch (e : Env) (message : string) : M unit :=
  data <- (match json_loads e message with
           | Some data => ret data
           | None => raise (json_error e message)
           end) ;;
  message_type <- get data "type" (JStr "") ;;
  fresh <- new_uuid e ;;
  request_id <- get data "request_id" (JStr fresh) ;;
  text <- get data "text" (JStr "") ;;
  if eq_str message_type "synthesize" then
    _handle_synthesis_request e text request_id
  else if eq_str message_type "get_voices" then
    _send_voice_info e request_id
  else if eq_str message_type "ping" then
    _send_pong e request_id
  else
    _send_error e ("未知的消息类型: " ++ format e message_type) request_id.

Definition _handle_message (e : Env) (message : string) : M unit :=
  try_except (dispatch e message)
    (fun ex =>
       match ex with
       | JSONDecodeError => _send_error e "无效的JSON格式" (JStr "invalid")
       | _ => _send_error e (exn_str ex) (JStr "error")
       end).

(** [async for message in websocket]: the frames the client sends before it
    closes the connection, one after the other. *)
Fixpoint receive_loop (e : Env) (inbound : list string) : M unit :=
  match inbound with
  | [] => ret tt
  | message :: inbound' =>
      _handle_message e message ;;; receive_loop e inbound'
  end.

(** [handle_connection]: both [except] clauses only log. *)
Definition handle_connection (e : Env) (inbound : list string) : M unit :=
  connection_id <- new_uuid e ;;
  connected_at <- time e ;;
  (fun w => (Ok tt, with_active_connections
                      (<[connection_id := connected_at]>
                         (active_connections w)) w)) ;;;
  try_finally
    (try_except
       (_send_welcome_message e connection_id ;;; receive_loop e inbound)
       (fun _ => ret tt))
    (fun w => with_active_connections
                (delete connection_id (active_connections w)) w).

(** [start_server] up to its [await asyncio.Future()]: the server listens
    from the moment the [websockets.serve] context is entered. *)
Definition start_server (w : world) : world := with_serving true w.

(** [stop_server]: [self.tts_engine.stop()] and a log line. *)
Definition stop_server (w : world) : world := with_engine_stopped true w.

(** What the [websockets] library does with a client that connects: while
    the server listens and the process lives, it runs the handler. *)
Definition accepting (w : world) : bool :=
  serving w && bool_decide (exit_status w = None).

Definition connect (e : Env) (inbound : list string) (w : world)
  : option (result unit * world) :=
  if accepting w then Some (handle_connection e inbound w) else None.

(** ** app.py *)

(** The file of the [logging.FileHandler] that [logging.basicConfig]
    installs: every record of every logger is appended to it. *)
Definition LOG_FILE : string := "tts_service.log".

(** [platform.system()] *)
Inductive platform : Type := Windows | Linux | Darwin.

(** [TTSService.run] up to the point where the server waits: the flag is
    set, the signal handlers are registered, [start_server] is awaited. *)
Definition run (w : world) : world := start_server (with_is_running true w).

(** [TTSService.graceful_shutdown], the handler of SIGINT and SIGTERM. *)
Definition graceful_shutdown (p : platform) (w : world) : world :=
  if is_running w then
    let w1 := with_is_running false (stop_server w) in
    match p with
    | Windows => with_exit_status (Some 0) w1
    | _ => w1
    end
  else w.

(** ** Vocabulary of the statements *)

(** The frames a coroutine wrote between two states. *)
Definition emitted (w w' : world) : list json :=
  drop (length (sent w)) (sent w').

(** [m["type"] == t] *)
Definition is_type (t : string) (m : json) : bool :=
  match field "type" m with
  | Some v => eq_str v t
  | None => false
  end.

(** The frames of one type, in the order they were written. *)
Definition of_type (t : string) (out : list json) : list json :=
  List.filter (is_type t) out.

(** An integer field of a message. *)
Definition int_field (key : string) (m : json) : Z :=
  match field key m with
  | Some (JInt z) => z
  | _ => 0
  end.

Definition total (l : list Z) : Z := fold_right Z.add 0 l.

(** The [audio_chunk] frames for the blocks [blocks], when [chunk_index]
    chunks with [total_size] bytes went before. *)
Fixpoint chunks_from (e : Env) (request_id : json) (chunk_index total_size : Z)
    (blocks : list bytes) : list json :=
  match blocks with
  | [] => []
  | b :: blocks' =>
      chunk_message e request_id (chunk_index + 1) b (total_size + blen b)
      :: chunks_from e request_id (chunk_index + 1) (total_size + blen b)
           blocks'
  end.

(** The frames one run of a coroutine writes, started in [w]. *)
Definition frames_of {A} (c : M A) (w : world) : list json :=
  emitted w (snd (c w)).

(** A text [str.strip()] leaves nothing of. *)
Definition blank (s : string) : bool := forallb isspace (code_points s).

(** The envelope the protocol description asks of every outbound message. *)
Definition full_envelope (m : json) : bool :=
  has_field "type" m && has_field "request_id" m && has_field "timestamp" m.

(** The envelope the code gives a message, by its type. *)
Definition envelope (m : json) : bool :=
  if is_type "welcome" m then
    has_field "timestamp" m && negb (has_field "request_id" m)
  else if is_type "audio_chunk" m then
    has_field "request_id" m && negb (has_field "timestamp" m)
  else
    (is_type "voice_info" m || is_type "synthesis_start" m
     || is_type "synthesis_complete" m || is_type "pong" m
     || is_type "error" m)
    && has_field "request_id" m && has_field "timestamp" m.

(** A coroutine that only appends to the frames written, and only frames
    that satisfy [P]. *)
Definition sends_only {A} (P : json -> Prop) (c : M A) : Prop :=
  forall w r w', c w = (r, w') ->
    exists out, sent w' = sent w ++ out /\ Forall P out.

(** The suspended generator is inside the [try] with [temp_filename] bound
    to [f]: ending it or closing it runs the [finally] clause on [f]. *)
Definition owns (g : generator) (f : string) : Prop :=
  match g with
  | AtChunk f' _ _ | AtMissing f' | AtError (Some f') => f' = f
  | Created _ _ | AtBlank | AtError None | Finished => False
  end.

(** Not the generator object before its first [__anext__]. *)
Definition started (g : generator) : Prop :=
  match g with
  | Created _ _ => False
  | _ => True
  end.

(** ** A concrete environment for the examples *)

(** The frames of the examples and what [json.loads] makes of them. *)
Definition demo_frames : list (string * json) :=
  [("<ping X>", JObj [("type", JStr "ping"); ("request_id", JStr "X")]);
   ("<synthesize r1 hello>",
     JObj [("type", JStr "synthesize"); ("request_id", JStr "r1");
           ("text", JStr "hello")]);
   ("<synthesize r2>",
     JObj [("type", JStr "synthesize"); ("request_id", JStr "r2")]);
   ("<synthesize r2 empty>",
     JObj [("type", JStr "synthesize"); ("request_id", JStr "r2");
           ("text", JStr "")]);
   ("<subscribe r3>",
     JObj [("type", JStr "subscribe"); ("request_id", JStr "r3")]);
   ("<array>", JList [JInt 1; JInt 2])].

Definition digit (k : nat) : string :=
  String (ascii_of_nat (48 + k mod 10)) EmptyString.

(** An environment around one engine behaviour, one transport behaviour and
    one [os.unlink] behaviour. *)
Definition demo (r : engine_result) (net : nat -> option string)
    (unlink : bool) : Env :=
  {| json_loads := fun s => assoc s demo_frames;
     json_error := fun s =>
       if String.eqb s "<nested too deep>" then
         RecursionError "maximum recursion depth exceeded"
       else JSONDecodeError;
     uuid4 := fun k => ("uuid-" ++ digit k)%string;
     loop_time := fun k => inject_Z (Z.of_nat k);
     transport := net;
     b64encode := fun b => ("base64:" ++ digit (length b))%string;
     repr := fun v => ("<" ++ type_name v ++ ">")%string;
     named_temporary_file := fun k => Some ("/tmp/tmp" ++ digit k ++ ".wav")%string;
     engine := fun _ _ => r;
     unlink_ok := fun _ => unlink;
     voices := [Voice "v0" "Alice"; Voice "v1" "Bob"] |}.

(** A healthy transport, and one that refuses the [k]-th write (and no
    other). *)
Definition healthy : nat -> option string := fun _ => None.

Definition refusing (k : nat) : nat -> option string :=
  fun i => if Nat.eqb i k then Some "no close frame received or sent" else None.

(** 9000 bytes of audio: three blocks of at most 4096 bytes. *)
Definition demo_audio : bytes := repeat Byte.x78 (Z.to_nat 9000).

Definition engine_ok : engine_result := EngineResult false (Some demo_audio).

(** The engine raised and left the scratch file as it was created. *)
Definition engine_failed : engine_result := EngineResult true (Some []).

(** The engine left no file behind. *)
Definition engine_no_file : engine_result := EngineResult false None.


(** The frames the [try] block of [synthesize_and_stream] can have written
    when it returns or raises. *)
Inductive stream_trace (e : Env) (text : string) (request_id : json)
  : result unit -> list json -> Prop :=
| stream_complete blocks t0 t1 :
    stream_trace e text request_id (Ok tt)
      (start_message request_id text t0
       :: chunks_from e request_id 0 0 blocks
       ++ [end_message request_id (Z.of_nat (length blocks))
             (total (map blen blocks)) t1])
| stream_refused_start ex :
    stream_trace e text request_id (Raise ex) []
| stream_refused blocks t0 ex :
    stream_trace e text request_id (Raise ex)
      (start_message request_id text t0
       :: chunks_from e request_id 0 0 blocks).

(** The same for [synthesize_and_stream] itself: after a refused write the
    [except] clause adds the error message, unless that write is refused
    too. *)
Inductive request_trace (e : Env) (text : string) (request_id : json)
  : result unit -> list json -> Prop :=
| request_complete out :
    stream_trace e text request_id (Ok tt) out ->
    request_trace e text request_id (Ok tt) out
| request_reported out ex t :
    stream_trace e text request_id (Raise ex) out ->
    request_trace e text request_id (Ok tt)
      (out ++ [error_message request_id
                 ("音频流发送失败: " ++ exn_str ex)%string t])
| request_dropped out ex ex' :
    stream_trace e text request_id (Raise ex) out ->
    request_trace e text request_id (Raise ex') out.

(** ** The blocks of a file *)

(** The blocks the reading loop of [text_to_speech_stream] yields from what
    is unread: [f.read(chunk_size)] until it returns nothing.  [fuel] bounds
    the reads; one more than the length of [unread] is enough. *)
Fixpoint read_all (fuel : nat) (chunk_size : Z) (unread : bytes)
  : list bytes :=
  match fuel with
  | O => []
  | S fuel' =>
      match read chunk_size unread with
      | ([], _) => []
      | (chunk, rest) => chunk :: read_all fuel' chunk_size rest
      end
  end.

(** The non-empty blocks a generator has still to yield when its next
    [__anext__] runs in [w]. *)
Definition pending (e : Env) (g : generator) (w : world) : list bytes :=
  match g with
  | Created text chunk_size =>
      if falsy (JStr text) || (len_strip text <? 1) then []
      else
        match named_temporary_file e (temp_files w) with
        | None => []
        | Some _ =>
            match artifact (engine e (engine_runs w) text) with
            | Some audio => read_all (S (length audio)) chunk_size audio
            | None => []
            end
        end
  | AtChunk _ chunk_size unread =>
      read_all (S (length unread)) chunk_size unread
  | AtBlank | AtMissing _ | AtError _ | Finished => []
  end.

(** A coroutine that leaves one component of the process state as it
    found it. *)
Definition keeps {A B} (proj : world -> B) (c : M A) : Prop :=
  forall w r w', c w = (r, w') -> proj w' = proj w.

(** ** clients/python_client.py *)

(** The request of [test_tts_service]. *)
Definition request : json :=
  JObj [("type", JStr "synthesize");
        ("request_id", JStr "test_001");
        ("text", JStr "这是一个测试文本，用于验证语音合成服务是否正常工作。")].

(** How the client's coroutine ends: at its [break], with the connection
    closed by the server, or on an exception ([recv] on a closed
    connection, [data['type']] on a frame without the key). *)
Inductive client_end : Type := Completed | ConnectionEnded | Crashed.

(** The [async for] loop of the client over the frames it receives: the
    types it prints, and how it ends. *)
Fixpoint client_loop (e : Env) (frames : list json)
  : list string * client_end :=
  match frames with
  | [] => ([], ConnectionEnded)
  | data :: frames' =>
      match field "type" data with
      | None => ([], Crashed)
      | Some ty =>
          if eq_str ty "synthesis_complete" then ([format e ty], Completed)
          else
            let '(printed, r) := client_loop e frames' in
            (format e ty :: printed, r)
      end
  end.

(** [test_tts_service] on the frames the server sends: the first one is
    taken by [recv] as the welcome, the loop reads the others. *)
Definition test_tts_service (e : Env) (frames : list json)
  : list string * client_end :=
  match frames with
  | [] => ([], Crashed)
  | welcome :: frames' => client_loop e frames'
  end.

(** ** More frames for the examples *)

Definition more_frames : list (string * json) :=
  [("<get_voices q1>",
     JObj [("type", JStr "get_voices"); ("request_id", JStr "q1")]);
   ("<synthesize r5 five>",
     JObj [("type", JStr "synthesize"); ("request_id", JStr "r5");
           ("text", JInt 5)]);
   ("<synthesize r6 null>",
     JObj [("type", JStr "synthesize"); ("request_id", JStr "r6");
           ("text", JNull)]);
   ("<client request>", request)].

(** [demo] with a decoder that also knows [more_frames]. *)
Definition demo_more (r : engine_result) (net : nat -> option string)
    (unlink : bool) : Env :=
  let e := demo r net unlink in
  {| json_loads := fun s => assoc s (demo_frames ++ more_frames);
     json_error := json_error e;
     uuid4 := uuid4 e;
     loop_time := loop_time e;
     transport := transport e;
     b64encode := b64encode e;
     repr := repr e;
     named_temporary_file := named_temporary_file e;
     engine := engine e;
     unlink_ok := unlink_ok e;
     voices := voices e |}.


(** * Facts *)

(** ** The primitives *)

Lemma emitted_app w w' out : sent w' = sent w ++ out -> emitted w w' = out.
Proof. unfold emitted. intros ->. by rewrite drop_app_length. Qed.

Lemma send_inv e m w r w' :
  send e m w = (r, w') ->
  (transport e (writes w) = None /\ r = Ok tt /\
   w' = with_sent (sent w ++ [m]) (S (writes w)) w) \/
  (exists reason, transport e (writes w) = Some reason /\
   r = Raise (ConnectionClosed reason) /\
   w' = with_sent (sent w) (S (writes w)) w).
Proof.
  unfold send. destruct (transport e (writes w)) as [reason|]; intros [= <- <-].
  - right. by exists reason.
  - by left.
Qed.

Lemma send_accepted e m w :
  transport e (writes w) = None ->
  send e m w = (Ok tt, with_sent (sent w ++ [m]) (S (writes w)) w).
Proof. unfold send. by intros ->. Qed.

Lemma cleanup_sent e tf w : sent (cleanup e tf w) = sent w.
Proof. unfold cleanup. by repeat case_match. Qed.

Lemma cleanup_writes e tf w : writes (cleanup e tf w) = writes w.
Proof. unfold cleanup. by repeat case_match. Qed.

Lemma cleanup_abandoned e tf w : abandoned (cleanup e tf w) = abandoned w.
Proof. unfold cleanup. by repeat case_match. Qed.

Lemma cleanup_temp_files e tf w : temp_files (cleanup e tf w) = temp_files w.
Proof. unfold cleanup. by repeat case_match. Qed.

(** The clean-up never creates a file. *)
Lemma cleanup_absent e tf w p :
  fs w !! p = None -> fs (cleanup e tf w) !! p = None.
Proof.
  intros Hp. unfold cleanup. repeat case_match; try done.
  simpl. rewrite lookup_delete. by case_decide.
Qed.

(** It removes its file when [os.unlink] succeeds. *)
Lemma cleanup_removes e f w :
  f <> "" -> unlink_ok e f = true -> fs (cleanup e (Some f) w) !! f = None.
Proof.
  intros Hf Hu. unfold cleanup. rewrite Hu.
  destruct f as [|a f']; [done|]. simpl.
  case_bool_decide as Hs; simpl.
  - apply lookup_delete_eq.
  - destruct (fs w !! String a f') eqn:E; [|done]. destruct Hs. by eexists.
Qed.

Lemma read_next_inv e f cs unread w item g' w' :
  read_next e f cs unread w = (item, g', w') ->
  (item = None /\ g' = Finished /\ w' = cleanup e (Some f) w) \/
  (exists chunk rest, chunk <> [] /\ item = Some chunk /\
     g' = AtChunk f cs rest /\ w' = w /\
     (length rest < length unread)%nat).
Proof.
  unfold read_next, read.
  destruct (cs <? 0) eqn:Hcs.
  - destruct unread as [|b u]; intros [= <- <- <-]; [by left|].
    right. exists (b :: u), []. simpl. repeat split; try done. lia.
  - destruct (take (Z.to_nat cs) unread) as [|b c] eqn:Ht;
      intros [= <- <- <-]; [by left|].
    right. exists (b :: c), (drop (Z.to_nat cs) unread).
    repeat split; try done.
    rewrite length_drop.
    assert (Z.to_nat cs <> 0)%nat by (intros Hz; by rewrite Hz in Ht).
    assert (length unread <> 0)%nat by (destruct unread; [by rewrite take_nil in Ht|done]).
    lia.
Qed.

(** ** The generator *)

Lemma read_next_frame e f cs unread w item g' w' :
  read_next e f cs unread w = (item, g', w') ->
  sent w' = sent w /\ writes w' = writes w /\ abandoned w' = abandoned w.
Proof.
  intros H. apply read_next_inv in H as [(-> & -> & ->)|(c & r & _ & -> & -> & -> & _)].
  - by rewrite cleanup_sent, cleanup_writes, cleanup_abandoned.
  - done.
Qed.

(** [__anext__] writes nothing to the websocket and drops no generator. *)
Lemma anext_frame e g w item g' w' :
  anext e g w = (item, g', w') ->
  sent w' = sent w /\ writes w' = writes w /\ abandoned w' = abandoned w.
Proof.
  unfold anext. destruct g; repeat case_match;
    try (intros [= <- <- <-]; unfold cleanup; by repeat case_match).
  all: intros Hr; apply read_next_frame in Hr; unfold synthesize in Hr;
    by simpl in Hr.
Qed.

(** A generator that yields has fewer steps left afterwards. *)
Lemma anext_steps e g w c g' w' :
  anext e g w = (Some c, g', w') ->
  forall w2, (steps_left e g' w2 < steps_left e g w)%nat.
Proof.
  unfold anext. destruct g as [text cs| |f cs unread|f|tf|]; try done.
  - destruct (falsy (JStr text) || (len_strip text <? 1));
      [intros [= <- <- <-]; simpl; intros; lia|].
    destruct (named_temporary_file e (temp_files w)) as [f|];
      [|intros [= <- <- <-]; simpl; intros; lia].
    destruct (fs _ !! f) as [content|] eqn:Hc;
      [|intros [= <- <- <-]; simpl; intros; lia].
    intros H w2.
    apply read_next_inv in H as [(? & _)|(ch & r & _ & _ & -> & _ & Hl)];
      [done|].
    unfold synthesize in Hc. simpl in Hc. simpl.
    destruct (artifact (engine e (engine_runs w) text)) as [audio|].
    + rewrite lookup_insert_eq in Hc. simplify_eq. lia.
    + by rewrite lookup_delete_eq in Hc.
  - intros H w2. apply read_next_inv in H as [(? & _)|(ch & r & _ & _ & -> & _ & Hl)];
      [done|]. simpl. lia.
Qed.

(** ** The loop *)

(** More fuel than [steps_left] changes nothing: the loop always ends on
    the generator's [StopAsyncIteration] or on a refused write. *)
Lemma async_for_fuel e n :
  forall m g rid ci ts w,
    (steps_left e g w <= n)%nat -> (n <= m)%nat ->
    async_for e m g rid ci ts w = async_for e n g rid ci ts w.
Proof.
  induction n as [|n IH]; intros m g rid ci ts w Hs Hm.
  - destruct g; simpl in Hs; lia.
  - destruct m as [|m]; [lia|]. simpl.
    destruct (anext e g w) as [[item g'] w1] eqn:Ha.
    destruct item as [[|b c]|]; [| |done].
    + apply IH; [|lia]. pose proof (anext_steps _ _ _ _ _ _ Ha w1). lia.
    + destruct (send e _ w1) as [[[]|ex] w2]; [|done].
      apply IH; [|lia]. pose proof (anext_steps _ _ _ _ _ _ Ha w2). lia.
Qed.

(** What the loop writes: one chunk message per block, numbered on from
    [ci] and with the running total on from [ts]; what it returns are the
    number and the total it reached. *)
Lemma async_for_sent e fuel :
  forall g rid ci ts w r w',
    async_for e fuel g rid ci ts w = (r, w') ->
    exists blocks,
      sent w' = sent w ++ chunks_from e rid ci ts blocks /\
      match r with
      | Ok (ci', ts') =>
          ci' = ci + Z.of_nat (length blocks) /\
          ts' = ts + total (map blen blocks)
      | Raise _ => True
      end.
Proof.
  induction fuel as [|fuel IH]; intros g rid ci ts w r w'; simpl.
  - intros [= <- <-]. exists []. simpl. rewrite app_nil_r.
    split; [done|]. unfold total. simpl. lia.
  - destruct (anext e g w) as [[item g'] w1] eqn:Ha.
    apply anext_frame in Ha as (Hs & _ & _).
    destruct item as [[|b c]|].
    + intros H. apply IH in H as (blocks & H1 & H2).
      exists blocks. by rewrite <- Hs.
    + destruct (send e _ w1) as [[[]|ex] w2] eqn:Hsend;
        apply send_inv in Hsend as [(_ & ? & ->)|(? & _ & ? & ->)]; try done.
      * intros Hl. apply IH in Hl as (blocks & H1 & H2).
        exists ((b :: c) :: blocks). split.
        -- rewrite H1. simpl sent. rewrite Hs, <- app_assoc. done.
        -- destruct r as [[ci' ts']|]; [|done].
           destruct H2 as [-> ->]. cbn [length map total fold_right].
           unfold total. lia.
      * intros [= <- <-]. exists []. simpl. by rewrite app_nil_r.
    + intros [= <- <-]. exists []. simpl. rewrite app_nil_r.
      split; [done|]. unfold total. simpl. lia.
Qed.

(** ** [synthesize_and_stream] *)

Lemma stream_spec e text rid w r w' :
  stream e text rid w = (r, w') ->
  exists out, sent w' = sent w ++ out /\ stream_trace e text rid r out.
Proof.
  unfold stream, bind, time.
  destruct (send e (start_message _ _ _) _) as [[[]|ex] w1] eqn:H1;
    apply send_inv in H1 as [(_ & ? & ->)|(? & _ & ? & ->)]; try done.
  - destruct (async_for _ _ _ _ _ _ _) as [[[ci ts]|ex] w2] eqn:H2;
      apply async_for_sent in H2 as (blocks & Hs & Hr); simpl in Hs.
    + destruct Hr as [-> ->]. simpl fst. simpl snd.
      destruct (send e (end_message _ _ _ _) _) as [[[]|ex] w3] eqn:H3;
        apply send_inv in H3 as [(_ & ? & ->)|(? & _ & ? & ->)]; try done;
        intros [= <- <-]; simpl sent; rewrite Hs, <- ?app_assoc; simpl.
      * eexists. split; [done|]. rewrite !Z.add_0_l. constructor.
      * eexists. split; [done|]. constructor.
    + intros [= <- <-]. rewrite Hs, <- app_assoc. simpl.
      eexists. split; [done|]. constructor.
  - intros [= <- <-]. exists []. simpl. rewrite app_nil_r. split; [done|constructor].
Qed.

Lemma synthesize_and_stream_spec e text rid w r w' :
  synthesize_and_stream e text rid w = (r, w') ->
  exists out, sent w' = sent w ++ out /\ request_trace e text rid r out.
Proof.
  unfold synthesize_and_stream, try_except.
  destruct (stream e text rid w) as [[[]|ex] w1] eqn:H1;
    apply stream_spec in H1 as (out & Hs & Ht).
  - intros [= <- <-]. exists out. split; [done|by constructor].
  - unfold bind, time.
    destruct (send e _ _) as [[[]|ex'] w2] eqn:H2;
      apply send_inv in H2 as [(_ & ? & ->)|(? & _ & ? & ->)]; try done;
      intros [= <- <-]; simpl sent; rewrite Hs, <- ?app_assoc.
    + eexists. split; [done|]. by constructor.
    + eexists. split; [done|]. by econstructor.
Qed.

(** ** Reading the frames *)

Lemma is_type_start t rid text t0 :
  is_type t (start_message rid text t0) = ("synthesis_start" =? t)%string.
Proof. reflexivity. Qed.

Lemma is_type_chunk t e rid ci b ts :
  is_type t (chunk_message e rid ci b ts) = ("audio_chunk" =? t)%string.
Proof. reflexivity. Qed.

Lemma is_type_end t rid ci ts t1 :
  is_type t (end_message rid ci ts t1) = ("synthesis_complete" =? t)%string.
Proof. reflexivity. Qed.

Lemma is_type_error t rid msg t1 :
  is_type t (error_message rid msg t1) = ("error" =? t)%string.
Proof. reflexivity. Qed.

Lemma of_type_app t l1 l2 : of_type t (l1 ++ l2) = of_type t l1 ++ of_type t l2.
Proof. apply List.filter_app. Qed.

Lemma of_type_cons t m l :
  of_type t (m :: l) = if is_type t m then m :: of_type t l else of_type t l.
Proof. reflexivity. Qed.

Lemma of_type_chunks t e rid ci ts blocks :
  of_type t (chunks_from e rid ci ts blocks) =
  if ("audio_chunk" =? t)%string then chunks_from e rid ci ts blocks else [].
Proof.
  unfold of_type. revert ci ts.
  induction blocks as [|b blocks IH]; intros ci ts.
  - by destruct ("audio_chunk" =? t)%string.
  - cbn [chunks_from List.filter].
    rewrite is_type_chunk, (IH (ci + 1) (ts + blen b)).
    by destruct ("audio_chunk" =? t)%string.
Qed.

Lemma length_chunks_from e rid ci ts blocks :
  length (chunks_from e rid ci ts blocks) = length blocks.
Proof.
  revert ci ts. induction blocks as [|b blocks IH]; intros ci ts; simpl;
    [done|]. by rewrite IH.
Qed.

Lemma chunk_sizes e rid ci ts blocks :
  map (int_field "chunk_size") (chunks_from e rid ci ts blocks) =
  map blen blocks.
Proof.
  revert ci ts. induction blocks as [|b blocks IH]; intros ci ts; simpl;
    [done|]. by rewrite IH.
Qed.

Lemma chunk_indices e rid ci ts blocks :
  map (field "chunk_index") (chunks_from e rid ci ts blocks) =
  map (fun i => Some (JInt i)) (seqZ (ci + 1) (Z.of_nat (length blocks))).
Proof.
  revert ci ts. induction blocks as [|b blocks IH]; intros ci ts.
  - done.
  - cbn [chunks_from map length]. rewrite IH.
    rewrite Nat2Z.inj_succ, (seqZ_cons (ci + 1)) by lia.
    cbn [map]. f_equal. rewrite Z.pred_succ. by replace (Z.succ (ci + 1)) with (ci + 1 + 1) by lia.
Qed.

(** The running total a chunk carries is the sum of the sizes up to it. *)
Lemma chunk_totals e rid blocks :
  forall ci ts i m,
    chunks_from e rid ci ts blocks !! i = Some m ->
    field "total_size" m =
    Some (JInt (ts + total (map (int_field "chunk_size")
                              (take (S i) (chunks_from e rid ci ts blocks))))).
Proof.
  induction blocks as [|b blocks IH]; intros ci ts i m; [done|].
  destruct i as [|i]; cbn [chunks_from].
  - intros [= <-]. cbn. unfold total. simpl. do 2 f_equal. lia.
  - intros H. cbn in H. apply IH in H. rewrite H.
    cbn [take map total fold_right]. unfold total, int_field at 2. cbn.
    do 2 f_equal. lia.
Qed.

(** The [audio_chunk] frames of a request are the chunk messages of some
    blocks, whatever way the request ends; a [synthesis_complete] frame
    carries their number and their total size. *)
Lemma request_trace_chunks e text rid r out :
  request_trace e text rid r out ->
  exists blocks,
    of_type "audio_chunk" out = chunks_from e rid 0 0 blocks /\
    forall m, In m out -> is_type "synthesis_complete" m = true ->
      exists t1, m = end_message rid (Z.of_nat (length blocks))
                       (total (map blen blocks)) t1.
Proof.
  assert (Hc : forall blocks m,
             In m (chunks_from e rid 0 0 blocks) ->
             is_type "synthesis_complete" m = true -> False).
  { intros blocks m Hin Hm.
    assert (In m (of_type "synthesis_complete" (chunks_from e rid 0 0 blocks)))
      as Hf by (apply List.filter_In; done).
    by rewrite of_type_chunks in Hf. }
  assert (Hs : forall r' out', stream_trace e text rid r' out' ->
    exists blocks,
      of_type "audio_chunk" out' = chunks_from e rid 0 0 blocks /\
      forall m, In m out' -> is_type "synthesis_complete" m = true ->
        r' = Ok tt /\
        exists t1, m = end_message rid (Z.of_nat (length blocks))
                         (total (map blen blocks)) t1).
  { intros r' out' [blocks t0 t1|ex|blocks t0 ex].
    - exists blocks. split.
      + rewrite of_type_cons.
        change (is_type "audio_chunk" (start_message rid text t0)) with false.
        rewrite of_type_app, of_type_chunks. simpl. by rewrite app_nil_r.
      + intros m [<-|Hin]; [done|]. intros Hm.
        apply in_app_or in Hin as [Hin|[<-|[]]]; [by destruct (Hc _ _ Hin Hm)|].
        split; [done|]. by exists t1.
    - exists []. split; [done|]. by intros m [].
    - exists blocks. split.
      + rewrite of_type_cons.
        change (is_type "audio_chunk" (start_message rid text t0)) with false.
        by rewrite of_type_chunks.
      + intros m [<-|Hin]; [done|]. intros Hm. by destruct (Hc _ _ Hin Hm). }
  intros [out' Ht|out' ex t Ht|out' ex ex' Ht];
    apply Hs in Ht as (blocks & Ha & Hm); exists blocks.
  - split; [done|]. intros m Hin Hty. by apply Hm.
  - split.
    + rewrite of_type_app, Ha. simpl. by rewrite app_nil_r.
    + intros m Hin Hty. apply in_app_or in Hin as [Hin|[<-|[]]]; [|done].
      by destruct (Hm m Hin Hty).
  - split; [done|]. intros m Hin Hty. by destruct (Hm m Hin Hty).
Qed.

(** * The claims *)

(** C1.  Whenever [synthesize_and_stream] emits a [synthesis_complete]
    frame, its [total_chunks] is the number of [audio_chunk] frames the call
    wrote and its [total_size] is the sum of their [chunk_size] fields. *)
Theorem complete_counts_match e text rid w m :
  let out := frames_of (synthesize_and_stream e text rid) w in
  In m out -> is_type "synthesis_complete" m = true ->
  field "total_chunks" m =
    Some (JInt (Z.of_nat (length (of_type "audio_chunk" out)))) /\
  field "total_size" m =
    Some (JInt (total (map (int_field "chunk_size")
                         (of_type "audio_chunk" out)))).
Proof.
  intros out Hin Hty. unfold out, frames_of in *.
  destruct (synthesize_and_stream e text rid w) as [r w'] eqn:H.
  apply synthesize_and_stream_spec in H as (o & Hs & Ht). simpl in *.
  rewrite (emitted_app _ _ _ Hs) in *.
  apply request_trace_chunks in Ht as (blocks & Ha & Hm).
  destruct (Hm m Hin Hty) as [t1 ->].
  by rewrite Ha, length_chunks_from, chunk_sizes.
Qed.

Lemma complete_counts_match_witness :
  let e := demo engine_ok healthy true in
  let out := frames_of (synthesize_and_stream e "hello" (JStr "r1")) boot in
  let m := end_message (JStr "r1") 3 9000 (inject_Z 1) in
  field "total_chunks" m =
    Some (JInt (Z.of_nat (length (of_type "audio_chunk" out)))) /\
  field "total_size" m =
    Some (JInt (total (map (int_field "chunk_size")
                         (of_type "audio_chunk" out)))).
Proof.
  intros e out m.
  apply (complete_counts_match e "hello" (JStr "r1") boot m).
  - vm_compute. do 4 right. left. reflexivity.
  - reflexivity.
Defined.

(** Read off the frames alone: the [chunk_index] fields of the
    [audio_chunk] frames of one call are 1, 2, ..., N in this order, and the
    [total_size] of each is the sum of the [chunk_size] fields up to and
    including it. *)
Lemma chunk_fields_sequence e text rid w :
  let chunks :=
    of_type "audio_chunk" (frames_of (synthesize_and_stream e text rid) w) in
  map (field "chunk_index") chunks =
    map (fun i => Some (JInt i)) (seqZ 1 (Z.of_nat (length chunks))) /\
  forall i m, chunks !! i = Some m ->
    field "total_size" m =
      Some (JInt (total (map (int_field "chunk_size") (take (S i) chunks)))).
Proof.
  intros chunks. unfold chunks, frames_of.
  destruct (synthesize_and_stream e text rid w) as [r w'] eqn:H.
  apply synthesize_and_stream_spec in H as (o & Hs & Ht). simpl.
  rewrite (emitted_app _ _ _ Hs).
  apply request_trace_chunks in Ht as (blocks & -> & _).
  split.
  - by rewrite chunk_indices, length_chunks_from.
  - intros i m Hi. by rewrite (chunk_totals _ _ _ _ _ _ _ Hi), Z.add_0_l.
Qed.

Example chunk_sequence_demo :
  map (fun m => (field "chunk_index" m, field "chunk_size" m,
                 field "total_size" m))
    (of_type "audio_chunk"
       (frames_of (synthesize_and_stream (demo engine_ok healthy true)
                     "hello" (JStr "r1")) boot)) =
  [(Some (JInt 1), Some (JInt 4096), Some (JInt 4096));
   (Some (JInt 2), Some (JInt 4096), Some (JInt 8192));
   (Some (JInt 3), Some (JInt 808), Some (JInt 9000))].
Proof. vm_compute. reflexivity. Qed.

(** ** Failures *)


(** With a transport that accepts every write the loop does not raise. *)
Lemma async_for_healthy e :
  (forall k, transport e k = None) ->
  forall fuel g rid ci ts w,
    exists v w', async_for e fuel g rid ci ts w = (Ok v, w').
Proof.
  intros Hnet. induction fuel as [|fuel IH]; intros g rid ci ts w; simpl.
  - by eexists _, _.
  - destruct (anext e g w) as [[item g'] w1].
    destruct item as [[|b c]|]; [apply IH| |by eexists _, _].
    rewrite send_accepted by apply Hnet. apply IH.
Qed.

(** Then the call ends with [synthesis_complete] and reports nothing,
    whatever the engine did. *)
Lemma engine_outcome_not_reported e text rid w :
  (forall k, transport e k = None) ->
  let out := frames_of (synthesize_and_stream e text rid) w in
  fst (synthesize_and_stream e text rid w) = Ok tt /\
  of_type "error" out = [] /\
  exists m, of_type "synthesis_complete" out = [m].
Proof.
  intros Hnet out. unfold out, frames_of, synthesize_and_stream, try_except.
  destruct (stream e text rid w) as [r w1] eqn:Hs.
  assert (r = Ok tt) as ->.
  { revert Hs. unfold stream, bind, time.
    rewrite send_accepted by apply Hnet.
    match goal with
    | |- context [async_for e ?f ?g ?r ?c ?t ?w0] =>
        destruct (async_for_healthy e Hnet f g r c t w0) as (v & w2 & ->)
    end.
    rewrite send_accepted by apply Hnet. by intros [= <- _]. }
  apply stream_spec in Hs as (o & Hs & Ht). simpl.
  rewrite (emitted_app _ _ _ Hs). split; [done|].
  inversion Ht; subst.
  rewrite !of_type_cons, !of_type_app, !of_type_chunks.
  change (is_type "error" (start_message rid text t0)) with false.
  change (is_type "synthesis_complete" (start_message rid text t0)) with false.
  simpl. split; [done|]. by eexists.
Qed.


(** The same with no scratch file left behind by the engine. *)
Example missing_artifact_completes :
  let e := demo engine_no_file healthy true in
  let out := frames_of (synthesize_and_stream e "hello" (JStr "r1")) boot in
  artifact (engine e 0 "hello") = None /\
  of_type "error" out = [] /\
  of_type "synthesis_complete" out =
    [end_message (JStr "r1") 0 0 (inject_Z 1)].
Proof. vm_compute. done. Qed.

(** ** Validation *)

Lemma lstrip_nil cs : lstrip cs = [] <-> forallb isspace cs = true.
Proof.
  induction cs as [|c cs IH]; simpl; [done|].
  destruct (isspace c); simpl; [done|]. split; discriminate.
Qed.

Lemma lstrip_head cs c r : lstrip cs = c :: r -> isspace c = false.
Proof.
  induction cs as [|c' cs IH]; simpl; [done|].
  destruct (isspace c') eqn:E; [done|]. by intros [= <- _].
Qed.

Lemma strip_nil s : strip s = [] <-> blank s = true.
Proof.
  unfold strip, blank. split.
  - intros H. apply lstrip_nil.
    destruct (lstrip (code_points s)) as [|c r] eqn:E; [done|].
    apply (f_equal (@rev N)) in H. rewrite rev_involutive in H.
    change (rev []) with (@nil N) in H.
    apply lstrip_nil in H. rewrite forallb_forall in H.
    apply lstrip_head in E.
    assert (isspace c = true) by (apply H; apply -> in_rev; by left).
    congruence.
  - intros H. apply lstrip_nil in H. by rewrite H.
Qed.

(** The guard of [_handle_synthesis_request] holds of the blank texts. *)
Lemma guard_blank s : falsy (JStr s) || (len_strip s =? 0) = blank s.
Proof.
  unfold len_strip. destruct (blank s) eqn:Hb.
  - apply strip_nil in Hb. rewrite Hb. simpl. apply orb_true_r.
  - apply orb_false_iff. split.
    + destruct s; [done|done].
    + apply Z.eqb_neq. intros H.
      assert (strip s = []) as Hs by (destruct (strip s); [done|simpl in H; lia]).
      apply strip_nil in Hs. congruence.
Qed.




(** ** The router *)

Lemma _send_error_accepted e msg rid w :
  transport e (writes w) = None ->
  _send_error e msg rid w =
  (Ok tt, with_sent (sent w ++ [error_message rid msg
                                  (loop_time e (clock_reads w))])
            (S (writes w)) (with_clock_reads (S (clock_reads w)) w)).
Proof. intros H. unfold _send_error, bind, time. by rewrite send_accepted. Qed.

(** A handled message lets the loop go on with the next one. *)
Lemma receive_loop_next e message rest w :
  fst (_handle_message e message w) = Ok tt ->
  receive_loop e (message :: rest) w =
  receive_loop e rest (snd (_handle_message e message w)).
Proof.
  intros H. cbn [receive_loop]. unfold bind.
  destruct (_handle_message e message w) as [[[]|ex] w']; by simpl in *.
Qed.

(** C5.  A frame [json.loads] cannot decode is answered, when the transport
    accepts the write, by exactly one [error] frame.  When [json.loads]
    raised [json.JSONDecodeError] (line 74) the request id is the string
    [invalid] and the message the fixed text; when it raised anything else
    (line 75: [RecursionError], [ValueError], [UnicodeDecodeError]) the
    request id is the string [error] and the message the text of the
    exception.  Either way the handler returns normally, the connection
    stays registered, and the receive loop goes on with the frames that
    follow. *)
Theorem undecodable_message e message rest w :
  json_loads e message = None ->
  transport e (writes w) = None ->
  let run := _handle_message e message w in
  let ex := json_error e message in
  let now := loop_time e (clock_reads w) in
  fst run = Ok tt /\
  (ex = JSONDecodeError ->
   frames_of (_handle_message e message) w =
     [error_message (JStr "invalid") "无效的JSON格式" now]) /\
  (ex <> JSONDecodeError ->
   frames_of (_handle_message e message) w =
     [error_message (JStr "error") (exn_str ex) now]) /\
  active_connections (snd run) = active_connections w /\
  receive_loop e (message :: rest) w = receive_loop e rest (snd run).
Proof.
  intros Hbad Hnet run ex now.
  assert (exists rid msg,
            run = (Ok tt,
              with_sent (sent w ++ [error_message rid msg now])
                (S (writes w)) (with_clock_reads (S (clock_reads w)) w)) /\
            (ex = JSONDecodeError ->
             rid = JStr "invalid" /\ msg = "无效的JSON格式") /\
            (ex <> JSONDecodeError ->
             rid = JStr "error" /\ msg = exn_str ex))
    as (rid & msg & Hrun & Hjson & Hother).
  { unfold run, _handle_message, try_except, dispatch, bind, raise.
    rewrite Hbad. fold ex.
    destruct ex eqn:Hex; eexists _, _;
      (split; [by apply _send_error_accepted|]); by split. }
  assert (frames_of (_handle_message e message) w =
          [error_message rid msg now]) as Hframes.
  { unfold frames_of. fold run. rewrite Hrun. by apply emitted_app. }
  split; [by rewrite Hrun|].
  split; [intros [-> ->]%Hjson; exact Hframes|].
  split; [intros [-> ->]%Hother; exact Hframes|].
  split; [by rewrite Hrun|].
  apply receive_loop_next. fold run. by rewrite Hrun.
Qed.

Lemma undecodable_message_witness :
  let e := demo engine_ok healthy true in
  (frames_of (_handle_message e "garbage") boot =
     [error_message (JStr "invalid") "无效的JSON格式"
        (loop_time e (clock_reads boot))] /\
   receive_loop e ["garbage"; "<ping X>"] boot =
     receive_loop e ["<ping X>"] (snd (_handle_message e "garbage" boot))) /\
  (frames_of (_handle_message e "<nested too deep>") boot =
     [error_message (JStr "error") "maximum recursion depth exceeded"
        (loop_time e (clock_reads boot))] /\
   receive_loop e ["<nested too deep>"; "<ping X>"] boot =
     receive_loop e ["<ping X>"]
       (snd (_handle_message e "<nested too deep>" boot))).
Proof.
  intros e. split.
  - destruct (undecodable_message e "garbage" ["<ping X>"] boot)
      as (_ & Hjson & _ & _ & Hloop); [reflexivity | reflexivity |].
    split; [apply Hjson; reflexivity | exact Hloop].
  - destruct (undecodable_message e "<nested too deep>" ["<ping X>"] boot)
      as (_ & _ & Hother & _ & Hloop); [reflexivity | reflexivity |].
    split; [apply Hother; discriminate | exact Hloop].
Defined.

(** A payload nested too deep for [json.loads] makes it raise
    [RecursionError], which is no [json.JSONDecodeError]: the answer's
    request id is the string [error], not [invalid], and its message is the
    text of the exception. *)
Lemma deep_nesting_counterexample :
  let e := demo engine_ok healthy true in
  json_loads e "<nested too deep>" = None /\
  map (fun m => (field "type" m, field "request_id" m, field "message" m))
    (frames_of (_handle_message e "<nested too deep>") boot) =
  [(Some (JStr "error"), Some (JStr "error"),
    Some (JStr "maximum recursion depth exceeded"))] /\
  JStr "error" <> JStr "invalid".
Proof. vm_compute. repeat split; done. Qed.

(** After the undecodable frame the session still answers a ping. *)
Example ping_after_garbage :
  map (fun m => (field "type" m, field "request_id" m))
    (frames_of (receive_loop (demo engine_ok healthy true)
                  ["garbage"; "<ping X>"]) boot) =
  [(Some (JStr "error"), Some (JStr "invalid"));
   (Some (JStr "pong"), Some (JStr "X"))].
Proof. vm_compute. reflexivity. Qed.



(** A frame that decodes to something that is no object has no fields at
    all: [data.get] raises, and the last [except] clause answers with the
    request id [error]. *)
Example frame_without_fields :
  frames_of (_handle_message (demo engine_ok healthy true) "<array>") boot =
  [error_message (JStr "error") "'list' object has no attribute 'get'"
     (inject_Z 0)].
Proof. vm_compute. reflexivity. Qed.




(** The frame with the explicit empty text gets the same answer. *)
Example empty_text_same_answer :
  let e := demo engine_ok healthy true in
  _handle_message e "<synthesize r2 empty>" boot =
  _handle_message e "<synthesize r2>" boot.
Proof. vm_compute. reflexivity. Qed.

(** ** The envelope of the frames *)

Section Envelope.

Context (e : Env) (P : json -> Prop).

Lemma sends_only_ret {A} (a : A) : sends_only P (ret a).
Proof. intros w r w' [= <- <-]. exists []. by rewrite app_nil_r. Qed.

Lemma sends_only_raise {A} ex : sends_only P (@raise A ex).
Proof. intros w r w' [= <- <-]. exists []. by rewrite app_nil_r. Qed.

Lemma sends_only_bind {A B} (c : M A) (k : A -> M B) :
  sends_only P c -> (forall a, sends_only P (k a)) -> sends_only P (bind c k).
Proof.
  intros Hc Hk w r w'. unfold bind.
  destruct (c w) as [[a|ex] w1] eqn:H1; apply Hc in H1 as (o1 & Hs1 & Hp1).
  - intros H2. apply Hk in H2 as (o2 & Hs2 & Hp2).
    exists (o1 ++ o2). rewrite Hs2, Hs1, <- app_assoc.
    split; [done|]. by apply Forall_app.
  - intros [= <- <-]. by exists o1.
Qed.

Lemma sends_only_try_except {A} (c : M A) (h : exn -> M A) :
  sends_only P c -> (forall ex, sends_only P (h ex)) ->
  sends_only P (try_except c h).
Proof.
  intros Hc Hh w r w'. unfold try_except.
  destruct (c w) as [[a|ex] w1] eqn:H1; apply Hc in H1 as (o1 & Hs1 & Hp1).
  - intros [= <- <-]. by exists o1.
  - intros H2. apply Hh in H2 as (o2 & Hs2 & Hp2).
    exists (o1 ++ o2). rewrite Hs2, Hs1, <- app_assoc.
    split; [done|]. by apply Forall_app.
Qed.

Lemma sends_only_try_finally {A} (c : M A) (f : world -> world) :
  sends_only P c -> (forall w, sent (f w) = sent w) ->
  sends_only P (try_finally c f).
Proof.
  intros Hc Hf w r w'. unfold try_finally.
  destruct (c w) as [r1 w1] eqn:H1. apply Hc in H1 as (o1 & Hs1 & Hp1).
  intros [= <- <-]. exists o1. by rewrite Hf.
Qed.

Lemma sends_only_send m : P m -> sends_only P (send e m).
Proof.
  intros Hm w r w' H.
  apply send_inv in H as [(_ & _ & ->)|(? & _ & _ & ->)]; simpl.
  - exists [m]. split; [done|]. by constructor.
  - exists []. by rewrite app_nil_r.
Qed.

Lemma sends_only_time : sends_only P (time e).
Proof. intros w r w' [= <- <-]. exists []. by rewrite app_nil_r. Qed.

Lemma sends_only_new_uuid : sends_only P (new_uuid e).
Proof. intros w r w' [= <- <-]. exists []. by rewrite app_nil_r. Qed.

Lemma sends_only_get data key dflt : sends_only P (get data key dflt).
Proof.
  unfold get. destruct data; auto using @sends_only_raise, @sends_only_ret.
Qed.

End Envelope.

Lemma envelope_chunks e rid ci ts blocks :
  Forall (fun m => envelope m = true) (chunks_from e rid ci ts blocks).
Proof.
  revert ci ts. induction blocks as [|b blocks IH]; intros ci ts; simpl;
    constructor; [reflexivity|apply IH].
Qed.

Lemma envelope_request_trace e text rid r out :
  request_trace e text rid r out -> Forall (fun m => envelope m = true) out.
Proof.
  assert (forall r' out', stream_trace e text rid r' out' ->
            Forall (fun m => envelope m = true) out') as Hs.
  { intros r' out' [blocks t0 t1|ex|blocks t0 ex].
    - constructor; [reflexivity|]. apply Forall_app. split.
      + apply envelope_chunks.
      + by constructor.
    - constructor.
    - constructor; [reflexivity|apply envelope_chunks]. }
  intros [o Ht|o ex t Ht|o ex ex' Ht]; apply Hs in Ht; try done.
  apply Forall_app. split; [done|]. by constructor.
Qed.

Lemma envelope_synthesize_and_stream e text rid :
  sends_only (fun m => envelope m = true) (synthesize_and_stream e text rid).
Proof.
  intros w r w' H. apply synthesize_and_stream_spec in H as (out & Hs & Ht).
  exists out. split; [done|]. by apply envelope_request_trace in Ht.
Qed.

Lemma envelope__send_error e msg rid :
  sends_only (fun m => envelope m = true) (_send_error e msg rid).
Proof.
  apply sends_only_bind; [apply sends_only_time|].
  intros t. by apply sends_only_send.
Qed.

Lemma envelope__handle_synthesis_request e text rid :
  sends_only (fun m => envelope m = true)
    (_handle_synthesis_request e text rid).
Proof.
  unfold _handle_synthesis_request.
  destruct text; repeat case_match;
    auto using envelope__send_error, envelope_synthesize_and_stream,
      @sends_only_raise.
Qed.

Lemma envelope__handle_message e message :
  sends_only (fun m => envelope m = true) (_handle_message e message).
Proof.
  apply sends_only_try_except.
  - unfold dispatch.
    apply sends_only_bind.
    { destruct (json_loads e message);
        auto using @sends_only_raise, @sends_only_ret. }
    intros data. apply sends_only_bind; [apply sends_only_get|].
    intros message_type. apply sends_only_bind; [apply sends_only_new_uuid|].
    intros fresh. apply sends_only_bind; [apply sends_only_get|].
    intros request_id. apply sends_only_bind; [apply sends_only_get|].
    intros text. repeat case_match.
    + apply envelope__handle_synthesis_request.
    + apply sends_only_bind; [apply sends_only_time|].
      intros t. by apply sends_only_send.
    + apply sends_only_bind; [apply sends_only_time|].
      intros t. by apply sends_only_send.
    + apply envelope__send_error.
  - intros ex. destruct ex; apply envelope__send_error.
Qed.

Lemma envelope_receive_loop e inbound :
  sends_only (fun m => envelope m = true) (receive_loop e inbound).
Proof.
  induction inbound as [|message inbound IH]; simpl.
  - apply sends_only_ret.
  - apply sends_only_bind; [apply envelope__handle_message|done].
Qed.

(** C7, as the code has it.  Every frame a connection handler writes has a
    [type]; a [welcome] frame has a [timestamp] and no [request_id], an
    [audio_chunk] frame has a [request_id] and no [timestamp], and a frame of
    any other type ([voice_info], [synthesis_start], [synthesis_complete],
    [pong], [error]) has both. *)
Theorem frames_have_envelope e inbound w :
  Forall (fun m => envelope m = true)
    (frames_of (handle_connection e inbound) w).
Proof.
  assert (sends_only (fun m => envelope m = true)
            (handle_connection e inbound)) as H.
  { unfold handle_connection.
    apply sends_only_bind; [apply sends_only_new_uuid|]. intros connection_id.
    apply sends_only_bind; [apply sends_only_time|]. intros connected_at.
    apply sends_only_bind.
    { intros w0 r w0' [= <- <-]. exists []. simpl. by rewrite app_nil_r. }
    intros _. apply sends_only_try_finally; [|done].
    apply sends_only_try_except; [|intros; apply sends_only_ret].
    apply sends_only_bind; [|intros; apply envelope_receive_loop].
    apply sends_only_bind; [apply sends_only_time|].
    intros t. by apply sends_only_send. }
  unfold frames_of.
  destruct (handle_connection e inbound w) as [r w'] eqn:Hr.
  apply H in Hr as (out & Hs & Hp). simpl.
  by rewrite (emitted_app _ _ _ Hs).
Qed.

(** C7 as it is written fails on the first frame of every connection and
    on every audio chunk: of the six frames of this session the [welcome]
    has no [request_id] and the three [audio_chunk]s have no [timestamp]. *)
Lemma full_envelope_counterexample :
  let e := demo engine_ok healthy true in
  let out := frames_of (handle_connection e ["<synthesize r1 hello>"]) boot in
  map (fun m => (field "type" m, full_envelope m)) out =
  [(Some (JStr "welcome"), false);
   (Some (JStr "synthesis_start"), true);
   (Some (JStr "audio_chunk"), false);
   (Some (JStr "audio_chunk"), false);
   (Some (JStr "audio_chunk"), false);
   (Some (JStr "synthesis_complete"), true)].
Proof. vm_compute. reflexivity. Qed.

(** ** The scratch file *)

Lemma truthy_name f : falsy (JStr f) = false -> f <> "".
Proof. by intros H ->. Qed.

Lemma anext_owned e g f w item g' w' :
  owns g f -> falsy (JStr f) = false -> unlink_ok e f = true ->
  anext e g w = (item, g', w') ->
  match item with
  | None => fs w' !! f = None
  | Some _ => owns g' f
  end.
Proof.
  intros Ho Hf Hu. apply truthy_name in Hf.
  destruct g as [| |f' cs unread|f'|[f'|]|]; simpl in Ho; try done; subst f'.
  - simpl. intros H.
    apply read_next_inv in H as [(-> & -> & ->)|(c & r & _ & -> & -> & -> & _)].
    + by apply cleanup_removes.
    + done.
  - cbn [anext]. intros H. assert (cleanup e (Some f) w = w') by congruence.
    assert (None = item) by congruence. subst. by apply cleanup_removes.
  - cbn [anext]. intros H. assert (cleanup e (Some f) w = w') by congruence.
    assert (None = item) by congruence. subst. by apply cleanup_removes.
Qed.

Lemma anext_started e g w item g' w' :
  started g -> anext e g w = (item, g', w') ->
  temp_files w' = temp_files w /\ started g'.
Proof.
  destruct g as [| |f cs unread|f|tf|]; cbn [started anext]; try done;
    intros _.
  - by intros [= <- <- <-].
  - intros H.
    apply read_next_inv in H as [(-> & -> & ->)|(c & r & _ & -> & -> & -> & _)];
      by rewrite ?cleanup_temp_files.
  - intros H. assert (cleanup e (Some f) w = w') by congruence.
    assert (Finished = g') by congruence. subst.
    by rewrite cleanup_temp_files.
  - intros H. assert (cleanup e tf w = w') by congruence.
    assert (Finished = g') by congruence. subst.
    by rewrite cleanup_temp_files.
  - by intros [= <- <- <-].
Qed.

Lemma async_for_started e fuel :
  forall g rid ci ts w r w',
    started g -> async_for e fuel g rid ci ts w = (r, w') ->
    temp_files w' = temp_files w.
Proof.
  induction fuel as [|fuel IH]; intros g rid ci ts w r w' Hg; simpl.
  - by intros [= <- <-].
  - destruct (anext e g w) as [[item g'] w1] eqn:Ha.
    apply (anext_started _ _ _ _ _ _ Hg) in Ha as [Ht Hg'].
    destruct item as [[|b c]|].
    + intros H. apply (IH _ _ _ _ _ _ _ Hg') in H. congruence.
    + destruct (send e _ w1) as [[[]|ex] w2] eqn:Hsend;
        apply send_inv in Hsend as [(_ & ? & ->)|(? & _ & ? & ->)]; try done.
      * intros Hl. apply (IH _ _ _ _ _ _ _ Hg') in Hl. simpl in Hl.
        congruence.
      * by intros [= <- <-].
    + by intros [= <- <-].
Qed.

(** A loop over a generator that owns [f]: when it ends normally the file
    is gone; when a write is refused the generator is dropped still owning
    the file. *)
Lemma async_for_owned e f fuel :
  falsy (JStr f) = false -> unlink_ok e f = true ->
  forall g rid ci ts w r w',
    owns g f -> (steps_left e g w <= fuel)%nat ->
    async_for e fuel g rid ci ts w = (r, w') ->
    match r with
    | Ok _ => abandoned w' = abandoned w /\ fs w' !! f = None
    | Raise _ => exists g', abandoned w' = g' :: abandoned w /\ owns g' f
    end.
Proof.
  intros Hf Hu. induction fuel as [|fuel IH];
    intros g rid ci ts w r w' Ho Hfuel.
  - destruct g; simpl in Hfuel; lia.
  - simpl. destruct (anext e g w) as [[item g'] w1] eqn:Ha.
    pose proof (anext_owned _ _ _ _ _ _ _ Ho Hf Hu Ha) as Hitem.
    pose proof (anext_frame _ _ _ _ _ _ Ha) as (_ & _ & Hab).
    destruct item as [[|b c]|].
    + intros H. pose proof (anext_steps _ _ _ _ _ _ Ha w1).
      apply IH in H; [|done|lia]. destruct r; by rewrite <- Hab.
    + destruct (send e _ w1) as [[[]|ex] w2] eqn:Hsend;
        apply send_inv in Hsend as [(_ & ? & ->)|(? & _ & ? & ->)]; try done.
      * intros Hl.
        match type of Hl with
        | async_for _ _ _ _ _ _ ?w2 = _ =>
            pose proof (anext_steps _ _ _ _ _ _ Ha w2)
        end.
        apply IH in Hl; [|done|lia]. destruct r; by rewrite <- Hab.
      * intros [= <- <-]. exists g'. simpl. by rewrite Hab.
    + intros [= <- <-]. by rewrite Hab.
Qed.

(** The same from the generator object as [text_to_speech_stream] returns
    it, when its first step creates the file [f]. *)
Lemma async_for_created e f text cs fuel rid ci ts w r w' :
  falsy (JStr f) = false -> unlink_ok e f = true ->
  named_temporary_file e (temp_files w) = Some f ->
  (steps_left e (Created text cs) w <= fuel)%nat ->
  async_for e fuel (Created text cs) rid ci ts w = (r, w') ->
  temp_files w' = S (temp_files w) ->
  match r with
  | Ok _ => abandoned w' = abandoned w /\ fs w' !! f = None
  | Raise _ => exists g', abandoned w' = g' :: abandoned w /\ owns g' f
  end.
Proof.
  intros Hf Hu Hname Hfuel.
  destruct fuel as [|fuel]; [simpl in Hfuel; lia|].
  cbn [async_for].
  destruct (anext e (Created text cs) w) as [[item g'] w1] eqn:Ha.
  pose proof (anext_frame _ _ _ _ _ _ Ha) as (_ & _ & Hab).
  pose proof (anext_steps e (Created text cs) w) as Hsteps.
  assert (temp_files w1 = temp_files w /\ started g' \/
          match item with
          | None => fs w1 !! f = None
          | Some _ => owns g' f
          end) as Hcase.
  { revert Ha. unfold anext.
    destruct (falsy (JStr text) || (len_strip text <? 1));
      [intros [= <- <- <-]; by left|].
    rewrite Hname.
    destruct (fs _ !! f) as [content|] eqn:Hc;
      [|intros [= <- <- <-]; by right].
    intros H. right.
    apply read_next_inv in H as [(-> & -> & ->)|(c & r0 & _ & -> & -> & -> & _)].
    - apply cleanup_removes; [by apply truthy_name|done].
    - done. }
  destruct Hcase as [[Ht Hg']|Hitem].
  { (* no file was created: the counter cannot have moved *)
    intros H Hcount. exfalso.
    destruct item as [[|b c]|].
    - apply (async_for_started _ _ _ _ _ _ _ _ _ Hg') in H. lia.
    - destruct (send e _ w1) as [[[]|ex] w2] eqn:Hsend;
        apply send_inv in Hsend as [(_ & ? & ->)|(? & _ & ? & ->)]; try done.
      + apply (async_for_started _ _ _ _ _ _ _ _ _ Hg') in H. simpl in H. lia.
      + injection H as <- <-. simpl in Hcount. lia.
    - injection H as <- <-. lia. }
  intros H _.
  destruct item as [[|b c]|].
  - pose proof (Hsteps _ _ _ Ha w1).
    apply (async_for_owned e f fuel Hf Hu) in H; [|done|lia].
    destruct r; by rewrite <- Hab.
  - destruct (send e _ w1) as [[[]|ex] w2] eqn:Hsend;
      apply send_inv in Hsend as [(_ & ? & ->)|(? & _ & ? & ->)]; try done.
    + match type of H with
      | async_for _ _ _ _ _ _ ?w2 = _ => pose proof (Hsteps _ _ _ Ha w2)
      end.
      apply (async_for_owned e f fuel Hf Hu) in H; [|done|lia].
      destruct r; by rewrite <- Hab.
    + injection H as <- <-. exists g'. simpl. by rewrite Hab.
  - injection H as <- <-. by rewrite Hab.
Qed.

(** Closing the dropped generators never creates a file, and removes the
    file of a generator that owns one. *)
Lemma aclose_absent e g w p :
  fs w !! p = None -> fs (aclose e g w) !! p = None.
Proof. intros Hp. unfold aclose. destruct g; auto using cleanup_absent. Qed.

Lemma aclose_owned e g w f :
  owns g f -> falsy (JStr f) = false -> unlink_ok e f = true ->
  fs (aclose e g w) !! f = None.
Proof.
  intros Ho Hf Hu. apply truthy_name in Hf. unfold aclose.
  destruct g as [| |f' ? ?|f'|[f'|]|]; cbn [owns] in Ho; try done; subst f';
    by apply cleanup_removes.
Qed.

Lemma close_abandoned_absent e w p :
  fs w !! p = None -> fs (close_abandoned e w) !! p = None.
Proof.
  intros Hp. unfold close_abandoned. cbn [fs with_abandoned].
  induction (abandoned w) as [|g l IH]; cbn [fold_right]; [done|].
  by apply aclose_absent.
Qed.

Lemma close_abandoned_owned e w g l f :
  abandoned w = g :: l -> owns g f ->
  falsy (JStr f) = false -> unlink_ok e f = true ->
  fs (close_abandoned e w) !! f = None.
Proof.
  intros Hab Ho Hf Hu. unfold close_abandoned. rewrite Hab.
  cbn [fs with_abandoned fold_right]. by apply aclose_owned.
Qed.

(** C8, as the code has it.  When a call of [synthesize_and_stream] has
    created the scratch file [f] and [os.unlink] succeeds on it, then the
    file is gone when the call returns unless a refused write made the call
    drop the suspended generator, and it is gone in every case once the
    dropped generators have been closed. *)
Theorem scratch_file_removed e text rid w f :
  named_temporary_file e (temp_files w) = Some f ->
  falsy (JStr f) = false ->
  unlink_ok e f = true ->
  let w' := snd (synthesize_and_stream e text rid w) in
  temp_files w' = S (temp_files w) ->
  (abandoned w' = abandoned w -> fs w' !! f = None) /\
  fs (close_abandoned e w') !! f = None.
Proof.
  intros Hname Hf Hu w'.
  assert (temp_files w' = S (temp_files w) ->
          (abandoned w' = abandoned w /\ fs w' !! f = None) \/
          (exists g', abandoned w' = g' :: abandoned w /\ owns g' f)) as Hcase.
  { unfold w', synthesize_and_stream, try_except, stream, bind, time.
    destruct (send e (start_message _ _ _) _) as [[[]|ex0] w1] eqn:H1;
      apply send_inv in H1 as [(_ & ? & ->)|(? & _ & ? & ->)]; try done.
    - destruct (async_for _ _ _ _ _ _ _) as [[[ci ts]|ex] w2] eqn:H2.
      + destruct (send e (end_message _ _ _ _) _) as [[[]|ex] w3] eqn:H3;
          apply send_inv in H3 as [(_ & ? & ->)|(? & _ & ? & ->)]; try done.
        * cbn. intros Hc.
          apply (async_for_created e f) in H2; try done. by left.
        * destruct (send e (error_message _ _ _) _) as [[[]|ex'] w4] eqn:H4;
            apply send_inv in H4 as [(_ & ? & ->)|(? & _ & ? & ->)];
            try done; cbn; intros Hc;
            apply (async_for_created e f) in H2; try done; by left.
      + destruct (send e (error_message _ _ _) _) as [[[]|ex'] w4] eqn:H4;
          apply send_inv in H4 as [(_ & ? & ->)|(? & _ & ? & ->)];
          try done; cbn; intros Hc;
          apply (async_for_created e f) in H2; try done; by right.
    - destruct (send e (error_message _ _ _) _) as [[[]|ex'] w4] eqn:H4;
        apply send_inv in H4 as [(_ & ? & ->)|(? & _ & ? & ->)];
        try done; cbn; lia. }
  intros Hc. destruct (Hcase Hc) as [[Hab Hfs]|(g' & Hab & Ho)].
  - split; [done|]. by apply close_abandoned_absent.
  - split.
    + intros Heq. rewrite Heq in Hab.
      apply (f_equal length) in Hab. simpl in Hab. lia.
    + by apply (close_abandoned_owned e w' g' (abandoned w)).
Qed.

Lemma scratch_file_removed_witness :
  let e := demo engine_ok healthy true in
  let w' := snd (synthesize_and_stream e "hello" (JStr "r1") boot) in
  (abandoned w' = abandoned boot -> fs w' !! "/tmp/tmp0.wav" = None) /\
  fs (close_abandoned e w') !! "/tmp/tmp0.wav" = None.
Proof.
  intros e.
  apply (scratch_file_removed e "hello" (JStr "r1") boot "/tmp/tmp0.wav");
    vm_compute; reflexivity.
Defined.

(** C8 as it is written fails when [os.unlink] raises: the [finally]
    clause logs the failure and the scratch file, with the audio in it,
    outlives the request, which ends normally. *)
Lemma unlink_failure_counterexample :
  let e := demo engine_ok healthy false in
  let run := synthesize_and_stream e "hello" (JStr "r1") boot in
  named_temporary_file e (temp_files boot) = Some "/tmp/tmp0.wav" /\
  fst run = Ok tt /\
  abandoned (snd run) = [] /\
  fs (snd run) !! "/tmp/tmp0.wav" = Some demo_audio.
Proof. vm_compute. done. Qed.

(** After a refused write the generator is dropped where it stands: the
    file is still there when the call returns, and goes when the event loop
    closes the generator. *)
Example dropped_generator_keeps_file :
  let e := demo engine_ok (refusing 2) true in
  let w' := snd (synthesize_and_stream e "hello" (JStr "r1") boot) in
  fs w' !! "/tmp/tmp0.wav" = Some demo_audio /\
  length (abandoned w') = 1%nat /\
  fs (close_abandoned e w') !! "/tmp/tmp0.wav" = None.
Proof. vm_compute. done. Qed.

(** ** Shutdown *)

(** C9, on the code.  On a platform other than Windows the shutdown
    handler stops the engine and clears [is_running], and that is all: the
    [websockets.serve] context is not left, no session is closed or removed,
    and a client that connects afterwards is served by [handle_connection]
    as before. *)
Theorem shutdown_keeps_accepting e p inbound w :
  p <> Windows ->
  is_running w = true ->
  accepting w = true ->
  let w' := graceful_shutdown p w in
  engine_stopped w' = true /\
  is_running w' = false /\
  accepting w' = true /\
  active_connections w' = active_connections w /\
  connect e inbound w' = Some (handle_connection e inbound w').
Proof.
  intros Hp Hrun Hacc w'. unfold w', graceful_shutdown, connect.
  rewrite Hrun.
  change (accepting (with_is_running false (stop_server w)))
    with (accepting w).
  destruct p; [done| |];
    change (accepting (with_is_running false (stop_server w)))
      with (accepting w); by rewrite Hacc.
Qed.

Lemma shutdown_keeps_accepting_witness :
  let e := demo engine_ok healthy true in
  let w' := graceful_shutdown Linux (run boot) in
  engine_stopped w' = true /\
  is_running w' = false /\
  accepting w' = true /\
  active_connections w' = active_connections (run boot) /\
  connect e [] w' = Some (handle_connection e [] w').
Proof.
  intros e.
  apply (shutdown_keeps_accepting e Linux [] (run boot)).
  - discriminate.
  - reflexivity.
  - reflexivity.
Defined.

(** A client that connects after the signal gets its welcome. *)
Example welcome_after_shutdown :
  let e := demo engine_ok healthy true in
  let w' := graceful_shutdown Linux (run boot) in
  option_map (fun x => map (field "type") (frames_of (fun _ => x) w'))
    (connect e ["<ping X>"] w') =
  Some [Some (JStr "welcome"); Some (JStr "pong")].
Proof. vm_compute. reflexivity. Qed.

(** On Windows the handler ends the process, and with it the listening. *)
Example shutdown_on_windows :
  let w' := graceful_shutdown Windows (run boot) in
  exit_status w' = Some 0 /\ accepting w' = false.
Proof. vm_compute. done. Qed.

(** A second signal finds [is_running] cleared and does nothing. *)
Lemma graceful_shutdown_twice p w :
  graceful_shutdown p (graceful_shutdown p w) = graceful_shutdown p w.
Proof.
  unfold graceful_shutdown. destruct (is_running w) eqn:H; [|by rewrite H].
  by destruct p.
Qed.

(** * Further properties of the code *)

(** ** The router on a decoded object *)

Lemma eq_str_true v s : eq_str v s = true -> v = JStr s.
Proof.
  destruct v; simpl; try done. intros H. by apply String.eqb_eq in H as ->.
Qed.

(** What the [try] block of [_handle_message] does with an object: the
    three [get]s succeed, one uuid is drawn, and the type selects the
    handler. *)
Lemma dispatch_object e message o w :
  json_loads e message = Some (JObj o) ->
  dispatch e message w =
  (let message_type := default (JStr "") (assoc "type" o) in
   let request_id := default (JStr (uuid4 e (uuids w))) (assoc "request_id" o) in
   let text := default (JStr "") (assoc "text" o) in
   if eq_str message_type "synthesize" then
     _handle_synthesis_request e text request_id
   else if eq_str message_type "get_voices" then
     _send_voice_info e request_id
   else if eq_str message_type "ping" then
     _send_pong e request_id
   else
     _send_error e ("未知的消息类型: " ++ format e message_type) request_id)
    (with_uuids (S (uuids w)) w).
Proof.
  intros H. unfold dispatch, bind, get, ret, new_uuid. by rewrite H.
Qed.

Lemma _handle_message_ok e message w w1 :
  dispatch e message w = (Ok tt, w1) ->
  _handle_message e message w = (Ok tt, w1).
Proof. intros H. unfold _handle_message, try_except. by rewrite H. Qed.





(** ** The [text] field of a request *)

(** X3.  A [synthesize] request whose [text] is a true value that is no
    string (a number, [true], a non-empty list or object) makes
    [text.strip()] raise: when the transport accepts the write the request is
    answered by one [error] frame whose request id is the string [error],
    not the request's id, and whose message is the text of the
    [AttributeError]; nothing is synthesized and the handler returns
    normally. *)
Theorem text_of_wrong_type e message o v w :
  json_loads e message = Some (JObj o) ->
  eq_str (default (JStr "") (assoc "type" o)) "synthesize" = true ->
  assoc "text" o = Some v ->
  type_name v <> "str" ->
  falsy v = false ->
  transport e (writes w) = None ->
  let run := _handle_message e message w in
  fst run = Ok tt /\
  frames_of (_handle_message e message) w =
    [error_message (JStr "error")
       ("'" ++ type_name v ++ "' object has no attribute 'strip'")
       (loop_time e (clock_reads w))] /\
  engine_runs (snd run) = engine_runs w.
Proof.
  intros Hdata Hty Htext Hstr Hv Hnet run.
  set (w1 := with_uuids (S (uuids w)) w).
  assert (run = (Ok tt,
            with_sent (sent w1 ++ [error_message (JStr "error")
                ("'" ++ type_name v ++ "' object has no attribute 'strip'")
                (loop_time e (clock_reads w1))])
              (S (writes w1)) (with_clock_reads (S (clock_reads w1)) w1)))
    as Hrun.
  { unfold run, _handle_message, try_except.
    rewrite (dispatch_object _ _ _ _ Hdata).
    apply eq_str_true in Hty. rewrite Hty, Htext. cbn zeta.
    cbn [eq_str String.eqb Ascii.eqb Bool.eqb default from_option id].
    unfold _handle_synthesis_request.
    destruct v; try done; rewrite Hv; unfold raise;
      by rewrite (_send_error_accepted e _ _ w1). }
  repeat split.
  - by rewrite Hrun.
  - unfold frames_of. fold run. rewrite Hrun. by apply emitted_app.
  - by rewrite Hrun.
Qed.

Lemma text_of_wrong_type_witness :
  let e := demo_more engine_ok healthy true in
  let run := _handle_message e "<synthesize r5 five>" boot in
  fst run = Ok tt /\
  frames_of (_handle_message e "<synthesize r5 five>") boot =
    [error_message (JStr "error")
       ("'" ++ type_name (JInt 5) ++ "' object has no attribute 'strip'")
       (loop_time e (clock_reads boot))] /\
  engine_runs (snd run) = engine_runs boot.
Proof.
  intros e.
  apply (text_of_wrong_type e "<synthesize r5 five>"
           [("type", JStr "synthesize"); ("request_id", JStr "r5");
            ("text", JInt 5)] (JInt 5) boot); try reflexivity.
  discriminate.
Defined.



(** ** Sessions *)

Section Keeps.

Context {B : Type} (proj : world -> B).

Lemma keeps_ret {A} (a : A) : keeps proj (ret a).
Proof. by intros w r w' [= <- <-]. Qed.

Lemma keeps_raise {A} ex : keeps proj (@raise A ex).
Proof. by intros w r w' [= <- <-]. Qed.

Lemma keeps_bind {A C} (c : M A) (k : A -> M C) :
  keeps proj c -> (forall a, keeps proj (k a)) -> keeps proj (bind c k).
Proof.
  intros Hc Hk w r w'. unfold bind.
  destruct (c w) as [[a|ex] w1] eqn:H1; apply Hc in H1.
  - intros H2. apply Hk in H2. congruence.
  - intros [= <- <-]. done.
Qed.

Lemma keeps_try_except {A} (c : M A) (h : exn -> M A) :
  keeps proj c -> (forall ex, keeps proj (h ex)) ->
  keeps proj (try_except c h).
Proof.
  intros Hc Hh w r w'. unfold try_except.
  destruct (c w) as [[a|ex] w1] eqn:H1; apply Hc in H1.
  - intros [= <- <-]. done.
  - intros H2. apply Hh in H2. congruence.
Qed.

End Keeps.

Lemma keeps_send_connections e m : keeps active_connections (send e m).
Proof.
  intros w r w' H. by apply send_inv in H as [(_ & _ & ->)|(? & _ & _ & ->)].
Qed.

Lemma keeps_time_connections e : keeps active_connections (time e).
Proof. by intros w r w' [= <- <-]. Qed.

Lemma keeps_new_uuid_connections e : keeps active_connections (new_uuid e).
Proof. by intros w r w' [= <- <-]. Qed.

Lemma cleanup_connections e tf w :
  active_connections (cleanup e tf w) = active_connections w.
Proof. unfold cleanup. by repeat case_match. Qed.

Lemma anext_connections e g w item g' w' :
  anext e g w = (item, g', w') ->
  active_connections w' = active_connections w.
Proof.
  assert (forall f cs unread w0,
            read_next e f cs unread w0 = (item, g', w') ->
            active_connections w' = active_connections w0) as Hr.
  { intros f cs unread w0 H.
    apply read_next_inv in H as [(_ & _ & ->)|(c & r & _ & _ & _ & -> & _)];
      by rewrite ?cleanup_connections. }
  unfold anext. destruct g as [text cs| |f cs unread|f|tf|].
  - destruct (falsy (JStr text) || (len_strip text <? 1));
      [by intros [= _ _ <-]|].
    destruct (named_temporary_file e (temp_files w)) as [f|];
      [|by intros [= _ _ <-]].
    destruct (fs _ !! f) as [content|]; [|by intros [= _ _ <-]].
    intros H. by apply Hr in H.
  - by intros [= _ _ <-].
  - apply Hr.
  - intros H. assert (cleanup e (Some f) w = w') as <- by congruence.
    apply cleanup_connections.
  - intros H. assert (cleanup e tf w = w') as <- by congruence.
    apply cleanup_connections.
  - by intros [= _ _ <-].
Qed.

Lemma keeps_async_for_connections e fuel :
  forall g rid ci ts,
    keeps active_connections (async_for e fuel g rid ci ts).
Proof.
  induction fuel as [|fuel IH]; intros g rid ci ts w r w'; simpl.
  - by intros [= <- <-].
  - destruct (anext e g w) as [[item g'] w1] eqn:Ha.
    apply anext_connections in Ha.
    destruct item as [[|b c]|].
    + intros H. apply IH in H. congruence.
    + destruct (send e _ w1) as [[[]|ex] w2] eqn:Hsend;
        apply keeps_send_connections in Hsend.
      * intros Hl. apply IH in Hl. congruence.
      * intros [= <- <-]. simpl. congruence.
    + intros [= <- <-]. done.
Qed.

Lemma keeps__send_error_connections e msg rid :
  keeps active_connections (_send_error e msg rid).
Proof.
  apply keeps_bind; [apply keeps_time_connections|].
  intros t. apply keeps_send_connections.
Qed.

Lemma keeps_synthesize_and_stream_connections e text rid :
  keeps active_connections (synthesize_and_stream e text rid).
Proof.
  apply keeps_try_except.
  - apply keeps_bind; [apply keeps_time_connections|]. intros t0.
    apply keeps_bind; [apply keeps_send_connections|]. intros _.
    apply keeps_bind.
    { intros w r w'. apply keeps_async_for_connections. }
    intros totals. apply keeps_bind; [apply keeps_time_connections|].
    intros t1. apply keeps_send_connections.
  - intros ex. apply keeps_bind; [apply keeps_time_connections|].
    intros t. apply keeps_send_connections.
Qed.

Lemma keeps__handle_message_connections e message :
  keeps active_connections (_handle_message e message).
Proof.
  apply keeps_try_except.
  - unfold dispatch. apply keeps_bind.
    { destruct (json_loads e message); auto using @keeps_ret, @keeps_raise. }
    intros data.
    assert (forall key dflt, keeps active_connections (get data key dflt))
      as Hget.
    { intros key dflt. unfold get.
      destruct data; auto using @keeps_ret, @keeps_raise. }
    apply keeps_bind; [apply Hget|]. intros message_type.
    apply keeps_bind; [apply keeps_new_uuid_connections|]. intros fresh.
    apply keeps_bind; [apply Hget|]. intros request_id.
    apply keeps_bind; [apply Hget|]. intros text.
    repeat case_match.
    + unfold _handle_synthesis_request.
      destruct text; repeat case_match;
        auto using keeps__send_error_connections,
          keeps_synthesize_and_stream_connections, @keeps_raise.
    + apply keeps_bind; [apply keeps_time_connections|].
      intros t. apply keeps_send_connections.
    + apply keeps_bind; [apply keeps_time_connections|].
      intros t. apply keeps_send_connections.
    + apply keeps__send_error_connections.
  - intros ex. destruct ex; apply keeps__send_error_connections.
Qed.

Lemma keeps_receive_loop_connections e inbound :
  keeps active_connections (receive_loop e inbound).
Proof.
  induction inbound as [|message inbound IH]; simpl.
  - apply keeps_ret.
  - apply keeps_bind; [apply keeps__handle_message_connections|done].
Qed.

Lemma try_except_swallow (c : M unit) w :
  fst (try_except c (fun _ => ret tt) w) = Ok tt.
Proof. unfold try_except. by destruct (c w) as [[[]|ex] w']. Qed.

(** X5.  Whatever happens in a session (refused writes, exceptions in a
    handler), when [handle_connection] returns it returns normally, its own
    entry is out of [active_connections] and every other entry is as it
    was. *)
Theorem connection_deregistered e inbound w :
  let run := handle_connection e inbound w in
  fst run = Ok tt /\
  active_connections (snd run) =
    delete (uuid4 e (uuids w)) (active_connections w).
Proof.
  intros run. unfold run, handle_connection, bind, new_uuid, time, try_finally.
  set (w1 := with_active_connections _ _).
  destruct (try_except _ _ w1) as [r w2] eqn:H.
  assert (active_connections w2 = active_connections w1) as Hk.
  { revert H. apply keeps_try_except.
    - apply keeps_bind; [|intros; apply keeps_receive_loop_connections].
      apply keeps_bind; [apply keeps_time_connections|].
      intros t. apply keeps_send_connections.
    - intros ex. apply keeps_ret. }
  assert (r = Ok tt) as ->.
  { change r with (fst (r, w2)). rewrite <- H. apply try_except_swallow. }
  split; [done|]. cbn [snd active_connections with_active_connections].
  rewrite Hk. unfold w1. cbn [active_connections with_active_connections].
  apply delete_insert_eq.
Qed.

Lemma bind_ok {A B} (c : M A) (k : A -> M B) w a w1 :
  c w = (Ok a, w1) -> bind c k w = k a w1.
Proof. intros H. unfold bind. by rewrite H. Qed.

Lemma bind_raise {A B} (c : M A) (k : A -> M B) w ex w1 :
  c w = (Raise ex, w1) -> bind c k w = (Raise ex, w1).
Proof. intros H. unfold bind. by rewrite H. Qed.

(** X6.  When the transport accepts the first write of a connection, the
    first frame the connection gets is the [welcome]: its [connection_id]
    is the key under which the session is registered, its [timestamp] the
    second reading of the clock (the first one is [connected_at]). *)
Theorem welcome_first e inbound w :
  transport e (writes w) = None ->
  exists rest,
    frames_of (handle_connection e inbound) w =
    welcome_msg e (uuid4 e (uuids w)) (loop_time e (S (clock_reads w)))
    :: rest.
Proof.
  intros Hnet. unfold frames_of, handle_connection.
  rewrite (bind_ok (new_uuid e) _ w _ _ eq_refl).
  rewrite (bind_ok (time e) _ _ _ _ eq_refl).
  match goal with
  | |- context [bind ?c ?k ?w0] => rewrite (bind_ok c k w0 tt _ eq_refl)
  end.
  unfold try_finally, try_except.
  match goal with
  | |- context [bind (_send_welcome_message e ?i) ?k ?w0] =>
      rewrite (bind_ok (_send_welcome_message e i) k w0 tt
                 (with_sent (sent w0 ++ [welcome_msg e i
                                           (loop_time e (clock_reads w0))])
                    (S (writes w0))
                    (with_clock_reads (S (clock_reads w0)) w0)))
  end.
  2: { unfold _send_welcome_message, bind, time. by rewrite send_accepted. }
  destruct (receive_loop e inbound _) as [r w3] eqn:Hr.
  apply envelope_receive_loop in Hr as (out & Hs & _). simpl in Hs.
  exists out.
  assert (sent w3 = sent w ++
            welcome_msg e (uuid4 e (uuids w)) (loop_time e (S (clock_reads w)))
            :: out) as Hs' by (rewrite Hs, <- app_assoc; done).
  destruct r as [[]|ex]; simpl; by apply emitted_app.
Qed.

Lemma welcome_first_witness :
  let e := demo engine_ok healthy true in
  exists rest,
    frames_of (handle_connection e ["<ping X>"]) boot =
    welcome_msg e (uuid4 e (uuids boot)) (loop_time e (S (clock_reads boot)))
    :: rest.
Proof.
  intros e. apply (welcome_first e ["<ping X>"] boot). reflexivity.
Defined.

(** X7.  When the write of the [welcome] is refused, the connection is
    given up at once: nothing is sent, no inbound frame is handled (no
    further uuid is drawn, the engine does not run), and the session leaves
    the registry. *)
Theorem welcome_refused e inbound w reason :
  transport e (writes w) = Some reason ->
  let run := handle_connection e inbound w in
  fst run = Ok tt /\
  frames_of (handle_connection e inbound) w = [] /\
  uuids (snd run) = S (uuids w) /\
  engine_runs (snd run) = engine_runs w /\
  active_connections (snd run) =
    delete (uuid4 e (uuids w)) (active_connections w).
Proof.
  intros Hnet run. unfold run, frames_of, handle_connection.
  rewrite (bind_ok (new_uuid e) _ w _ _ eq_refl).
  rewrite (bind_ok (time e) _ _ _ _ eq_refl).
  match goal with
  | |- context [bind ?c ?k ?w0] => rewrite (bind_ok c k w0 tt _ eq_refl)
  end.
  unfold try_finally, try_except.
  match goal with
  | |- context [bind (_send_welcome_message e ?i) ?k ?w0] =>
      rewrite (bind_raise (_send_welcome_message e i) k w0
                 (ConnectionClosed reason)
                 (with_sent (sent w0) (S (writes w0))
                    (with_clock_reads (S (clock_reads w0)) w0)))
  end.
  2: { unfold _send_welcome_message, bind, time, send. simpl.
       by rewrite Hnet. }
  cbn. repeat split; try done.
  - apply emitted_app. by rewrite app_nil_r.
  - apply delete_insert_eq.
Qed.

Lemma welcome_refused_witness :
  let e := demo engine_ok (refusing 0) true in
  let run := handle_connection e ["<synthesize r1 hello>"] boot in
  fst run = Ok tt /\
  frames_of (handle_connection e ["<synthesize r1 hello>"]) boot = [] /\
  uuids (snd run) = S (uuids boot) /\
  engine_runs (snd run) = engine_runs boot /\
  active_connections (snd run) =
    delete (uuid4 e (uuids boot)) (active_connections boot).
Proof.
  intros e.
  apply (welcome_refused e ["<synthesize r1 hello>"] boot
           "no close frame received or sent").
  reflexivity.
Defined.

(** ** A transport that accepts every write *)

Lemma request_trace_ok_nonempty e text rid out :
  request_trace e text rid (Ok tt) out -> out <> [].
Proof.
  inversion 1 as [o Ht|o ex t Ht|]; subst.
  - by inversion Ht.
  - by destruct o.
Qed.

(** A [try] block that returns normally has written a frame. *)
Lemma dispatch_answers e message w w1 :
  (forall k, transport e k = None) ->
  dispatch e message w = (Ok tt, w1) ->
  exists out, sent w1 = sent w ++ out /\ out <> [].
Proof.
  intros Hnet.
  destruct (json_loads e message) as [data|] eqn:Hdata;
    [|unfold dispatch, bind, raise; by rewrite Hdata].
  destruct data as [| | | | | |o];
    try (unfold dispatch, bind, raise, get, ret; by rewrite Hdata).
  rewrite (dispatch_object _ _ _ _ Hdata). cbn zeta.
  set (w0 := with_uuids (S (uuids w)) w).
  change (sent w) with (sent w0).
  assert (Herr : forall msg rid,
    _send_error e msg rid w0 = (Ok tt, w1) ->
    exists out, sent w1 = sent w0 ++ out /\ out <> []).
  { intros msg rid. rewrite _send_error_accepted by apply Hnet.
    intros [= <-]. by eexists [_]. }
  repeat case_match.
  - unfold _handle_synthesis_request.
    destruct (default (JStr "") (assoc "text" o)) as [| | | |s| |];
      repeat case_match; try apply Herr; try done.
    intros Hrun. apply synthesize_and_stream_spec in Hrun as (out & Hs & Ht).
    exists out. split; [done|]. by apply request_trace_ok_nonempty in Ht.
  - unfold _send_voice_info, bind, time.
    rewrite send_accepted by apply Hnet. intros [= <-]. by eexists [_].
  - unfold _send_pong, bind, time.
    rewrite send_accepted by apply Hnet. intros [= <-]. by eexists [_].
  - apply Herr.
Qed.

Lemma envelope_dispatch e message :
  sends_only (fun m => envelope m = true) (dispatch e message).
Proof.
  unfold dispatch.
  apply sends_only_bind.
  { destruct (json_loads e message);
      auto using @sends_only_raise, @sends_only_ret. }
  intros data. apply sends_only_bind; [apply sends_only_get|].
  intros message_type. apply sends_only_bind; [apply sends_only_new_uuid|].
  intros fresh. apply sends_only_bind; [apply sends_only_get|].
  intros request_id. apply sends_only_bind; [apply sends_only_get|].
  intros text. repeat case_match.
  - apply envelope__handle_synthesis_request.
  - apply sends_only_bind; [apply sends_only_time|].
    intros t. by apply sends_only_send.
  - apply sends_only_bind; [apply sends_only_time|].
    intros t. by apply sends_only_send.
  - apply envelope__send_error.
Qed.

(** With such a transport [_handle_message] never raises and always
    answers. *)
Lemma _handle_message_healthy e message w :
  (forall k, transport e k = None) ->
  exists w' out,
    _handle_message e message w = (Ok tt, w') /\
    sent w' = sent w ++ out /\ out <> [].
Proof.
  intros Hnet. unfold _handle_message, try_except.
  destruct (dispatch e message w) as [[[]|ex] w1] eqn:Hd.
  - apply (dispatch_answers _ _ _ _ Hnet) in Hd as (out & Hs & Hne).
    by exists w1, out.
  - apply envelope_dispatch in Hd as (o1 & Hs & _).
    assert (forall msg rid, exists w' out,
              _send_error e msg rid w1 = (Ok tt, w') /\
              sent w' = sent w ++ out /\ out <> []) as Herr.
    { intros msg rid. rewrite _send_error_accepted by apply Hnet.
      eexists _, (o1 ++ [_]). split; [done|]. simpl.
      rewrite Hs, <- app_assoc. split; [done|]. by destruct o1. }
    destruct ex; apply Herr.
Qed.

Lemma receive_loop_healthy e inbound :
  (forall k, transport e k = None) ->
  forall w, exists w' out,
    receive_loop e inbound w = (Ok tt, w') /\
    sent w' = sent w ++ out /\ (length inbound <= length out)%nat.
Proof.
  intros Hnet. induction inbound as [|message inbound IH]; intros w.
  - exists w, []. simpl. by rewrite app_nil_r.
  - destruct (_handle_message_healthy e message w Hnet)
      as (w1 & o1 & H1 & Hs1 & Hne).
    destruct (IH w1) as (w2 & o2 & H2 & Hs2 & Hlen).
    exists w2, (o1 ++ o2). cbn [receive_loop].
    rewrite (bind_ok _ _ _ _ _ H1). split; [done|].
    rewrite Hs2, Hs1, <- app_assoc. split; [done|].
    rewrite length_app. simpl.
    assert (length o1 <> 0)%nat by (by destruct o1). lia.
Qed.

(** X8.  Over a transport that accepts every write no inbound frame can
    end the session: whatever the frames are (undecodable, of an unknown
    type, with a failing synthesis), every one of them is handled and
    answered by at least one frame, so that the client receives more frames
    than it sent. *)
Theorem every_frame_answered e inbound w :
  (forall k, transport e k = None) ->
  fst (receive_loop e inbound w) = Ok tt /\
  (length inbound < length (frames_of (handle_connection e inbound) w))%nat.
Proof.
  intros Hnet. split.
  - destruct (receive_loop_healthy e inbound Hnet w) as (w' & out & -> & _).
    done.
  - unfold frames_of, handle_connection.
    rewrite (bind_ok (new_uuid e) _ w _ _ eq_refl).
    rewrite (bind_ok (time e) _ _ _ _ eq_refl).
    match goal with
    | |- context [bind ?c ?k ?w0] => rewrite (bind_ok c k w0 tt _ eq_refl)
    end.
    unfold try_finally, try_except.
    match goal with
    | |- context [bind (_send_welcome_message e ?i) ?k ?w0] =>
        rewrite (bind_ok (_send_welcome_message e i) k w0 tt
                   (with_sent (sent w0 ++ [welcome_msg e i
                                             (loop_time e (clock_reads w0))])
                      (S (writes w0))
                      (with_clock_reads (S (clock_reads w0)) w0)))
    end.
    2: { unfold _send_welcome_message, bind, time.
         by rewrite send_accepted by apply Hnet. }
    match goal with
    | |- context [receive_loop e inbound ?w0] =>
        destruct (receive_loop_healthy e inbound Hnet w0)
          as (w' & out & -> & Hs & Hlen)
    end.
    simpl in Hs. simpl.
    rewrite (emitted_app w _ (welcome_msg e (uuid4 e (uuids w))
                                (loop_time e (S (clock_reads w))) :: out)).
    + simpl. lia.
    + simpl. by rewrite Hs, <- app_assoc.
Qed.

Lemma every_frame_answered_witness :
  let e := demo engine_failed healthy true in
  let inbound := ["garbage"; "<array>"; "<synthesize r1 hello>"] in
  fst (receive_loop e inbound boot) = Ok tt /\
  (length inbound < length (frames_of (handle_connection e inbound) boot))%nat.
Proof.
  intros e inbound.
  apply (every_frame_answered e inbound boot). reflexivity.
Defined.

(** ** The blocks that are streamed *)

Lemma read_app size unread chunk rest :
  read size unread = (chunk, rest) -> chunk ++ rest = unread.
Proof.
  unfold read. destruct (size <? 0); intros [= <- <-].
  - by rewrite app_nil_r.
  - apply take_drop.
Qed.

Lemma read_shrinks size unread chunk rest :
  read size unread = (chunk, rest) -> chunk <> [] ->
  (length rest < length unread)%nat.
Proof.
  intros H Hne. apply read_app in H as <-. rewrite length_app.
  destruct chunk; [done|]. simpl. lia.
Qed.

(** With a positive size a block is as long as the size, or it is all that
    was left. *)
Lemma read_positive size unread chunk rest :
  0 < size -> read size unread = (chunk, rest) ->
  (chunk = [] -> unread = []) /\
  blen chunk <= size /\
  (rest <> [] -> blen chunk = size).
Proof.
  intros Hs. unfold read, blen.
  assert ((size <? 0) = false) as -> by lia. intros [= <- <-].
  repeat split.
  - destruct unread as [|b u]; [done|].
    destruct (Z.to_nat size) as [|n] eqn:E; [lia|]. done.
  - rewrite length_take. lia.
  - intros Hr. rewrite length_take.
    assert (length (drop (Z.to_nat size) unread) <> 0)%nat as Hd
      by (by destruct (drop (Z.to_nat size) unread)).
    rewrite length_drop in Hd. lia.
Qed.

Lemma read_all_fuel n :
  forall m size unread,
    (length unread < n)%nat -> (n <= m)%nat ->
    read_all m size unread = read_all n size unread.
Proof.
  induction n as [|n IH]; intros m size unread Hl Hm; [lia|].
  destruct m as [|m]; [lia|]. cbn [read_all].
  destruct (read size unread) as [chunk rest] eqn:Hr.
  destruct chunk as [|b c]; [done|]. f_equal.
  apply IH; [|lia].
  apply read_shrinks in Hr; [lia|done].
Qed.


Lemma read_all_bounds n :
  forall size unread,
    0 < size ->
    Forall (fun b => 0 < blen b <= size) (read_all n size unread).
Proof.
  induction n as [|n IH]; intros size unread Hs; [constructor|].
  cbn [read_all]. destruct (read size unread) as [chunk rest] eqn:Hr.
  pose proof (read_positive _ _ _ _ Hs Hr) as (_ & Hle & _).
  destruct chunk as [|b c]; [constructor|].
  constructor; [|by apply IH]. split; [|done]. unfold blen. simpl. lia.
Qed.



Lemma read_next_pending e f cs unread w item g' w' :
  read_next e f cs unread w = (item, g', w') ->
  forall w2,
    read_all (S (length unread)) cs unread =
    match item with
    | None => []
    | Some c => c :: pending e g' w2
    end /\ item <> Some [].
Proof.
  unfold read_next. cbn [read_all].
  destruct (read cs unread) as [chunk rest] eqn:Hr.
  destruct chunk as [|b c]; intros [= <- <- <-] w2; [done|].
  split; [|done]. cbn [pending]. f_equal.
  apply read_all_fuel; [lia|].
  apply read_shrinks in Hr; [lia|done].
Qed.

(** One step of the generator takes the first of its pending blocks, or
    yields the empty block and leaves them as they are. *)
Lemma anext_pending e g w item g' w' :
  anext e g w = (item, g', w') ->
  forall w2,
    pending e g w =
    match item with
    | None => []
    | Some [] => pending e g' w2
    | Some c => c :: pending e g' w2
    end.
Proof.
  assert (forall f cs unread w0,
            read_next e f cs unread w0 = (item, g', w') ->
            forall w2,
              read_all (S (length unread)) cs unread =
              match item with
              | None => []
              | Some [] => pending e g' w2
              | Some c => c :: pending e g' w2
              end) as Hr.
  { intros f cs unread w0 H w2.
    destruct (read_next_pending _ _ _ _ _ _ _ _ H w2) as [-> Hne].
    by destruct item as [[|b c]|]. }
  unfold anext. destruct g as [text cs| |f cs unread|f|tf|]; cbn [pending].
  - destruct (falsy (JStr text) || (len_strip text <? 1));
      [by intros [= <- <- _]|].
    destruct (named_temporary_file e (temp_files w)) as [f|];
      [|by intros [= <- <- _]].
    unfold synthesize. cbn [fs with_fs with_engine_runs with_temp_files
                             engine_runs].
    destruct (artifact (engine e (engine_runs w) text)) as [audio|].
    + rewrite lookup_insert_eq. apply Hr.
    + rewrite lookup_delete_eq. by intros [= <- <- _].
  - by intros [= <- <- _].
  - apply Hr.
  - intros H w2. by assert (None = item) as <- by congruence.
  - intros H w2. by assert (None = item) as <- by congruence.
  - by intros [= <- <- _].
Qed.

(** The loop sends the pending blocks of its generator, in order: all of
    them when it ends normally, those before the refused one otherwise. *)
Lemma async_for_pending e fuel :
  forall g rid ci ts w r w',
    (steps_left e g w <= fuel)%nat ->
    async_for e fuel g rid ci ts w = (r, w') ->
    exists blocks rest,
      pending e g w = blocks ++ rest /\
      sent w' = sent w ++ chunks_from e rid ci ts blocks /\
      match r with
      | Ok (ci', ts') =>
          rest = [] /\ ci' = ci + Z.of_nat (length blocks) /\
          ts' = ts + total (map blen blocks)
      | Raise _ => rest <> []
      end.
Proof.
  induction fuel as [|fuel IH]; intros g rid ci ts w r w' Hfuel.
  - destruct g; simpl in Hfuel; lia.
  - simpl. destruct (anext e g w) as [[item g'] w1] eqn:Ha.
    pose proof (anext_frame _ _ _ _ _ _ Ha) as (Hs & _ & _).
    pose proof (anext_pending _ _ _ _ _ _ Ha) as Hp.
    pose proof (anext_steps e g w) as Hsteps.
    destruct item as [[|b c]|].
    + intros Hl. pose proof (Hsteps _ _ _ Ha w1).
      apply IH in Hl as (blocks & rest & H1 & H2 & H3); [|lia].
      exists blocks, rest. rewrite (Hp w1), <- Hs. done.
    + destruct (send e _ w1) as [[[]|ex] w2] eqn:Hsend;
        apply send_inv in Hsend as [(_ & ? & ->)|(? & _ & ? & ->)]; try done.
      * intros Hl.
        match type of Hl with
        | async_for _ _ _ _ _ _ ?w2 = _ =>
            pose proof (Hsteps _ _ _ Ha w2); specialize (Hp w2)
        end.
        apply IH in Hl as (blocks & rest & H1 & H2 & H3); [|lia].
        exists ((b :: c) :: blocks), rest. rewrite Hp, H1. split; [done|].
        split.
        -- rewrite H2. simpl sent. rewrite Hs, <- app_assoc. done.
        -- destruct r as [[ci' ts']|]; [|done].
           destruct H3 as (-> & -> & ->). split; [done|].
           cbn [length map total fold_right]. unfold total. lia.
      * intros [= <- <-]. exists [], ((b :: c) :: pending e g' w1).
        rewrite (Hp w1). simpl. by rewrite app_nil_r, Hs.
    + intros [= <- <-]. exists [], []. rewrite (Hp w1). simpl.
      rewrite app_nil_r, Hs. repeat split; try done; unfold total; simpl; lia.
Qed.

(** The chunk frames of a call are the frames of the first pending blocks
    of its generator. *)
Lemma synthesize_and_stream_pending e text rid w :
  exists blocks rest,
    pending e (text_to_speech_stream text) w = blocks ++ rest /\
    of_type "audio_chunk" (frames_of (synthesize_and_stream e text rid) w) =
    chunks_from e rid 0 0 blocks.
Proof.
  unfold frames_of, synthesize_and_stream, try_except, stream, bind, time.
  destruct (send e (start_message _ _ _) _) as [[[]|ex0] w1] eqn:H1;
    apply send_inv in H1 as [(_ & ? & ->)|(? & _ & ? & ->)]; try done.
  - destruct (async_for _ _ _ _ _ _ _) as [[[ci ts]|ex] w2] eqn:H2;
      apply async_for_pending in H2 as (blocks & rest & Hp & Hs & Hr);
      try done; exists blocks, rest; (split; [exact Hp|]);
      simpl in Hs.
    + destruct (send e (end_message _ _ _ _) _) as [[[]|ex] w3] eqn:H3;
        apply send_inv in H3 as [(_ & ? & ->)|(? & _ & ? & ->)]; try done.
      * simpl. erewrite emitted_app;
          [|simpl; rewrite Hs, <- !app_assoc; reflexivity].
        rewrite !of_type_app, of_type_chunks. simpl. by rewrite app_nil_r.
      * destruct (send e (error_message _ _ _) _) as [[[]|ex'] w4] eqn:H4;
          apply send_inv in H4 as [(_ & ? & ->)|(? & _ & ? & ->)];
          try done; simpl;
          (erewrite emitted_app;
             [|simpl; rewrite Hs, <- !app_assoc; reflexivity]);
          rewrite !of_type_app, of_type_chunks; simpl;
          by rewrite ?app_nil_r.
    + destruct (send e (error_message _ _ _) _) as [[[]|ex'] w4] eqn:H4;
        apply send_inv in H4 as [(_ & ? & ->)|(? & _ & ? & ->)];
        try done; simpl;
        (erewrite emitted_app;
           [|simpl; rewrite Hs, <- !app_assoc; reflexivity]);
        rewrite !of_type_app, of_type_chunks; simpl;
        by rewrite ?app_nil_r.
  - exists [], (pending e (text_to_speech_stream text) w). split; [done|].
    destruct (send e (error_message _ _ _) _) as [[[]|ex'] w4] eqn:H4;
      apply send_inv in H4 as [(_ & ? & ->)|(? & _ & ? & ->)];
      try done; simpl.
    + by erewrite emitted_app; [|simpl; reflexivity].
    + by erewrite emitted_app; [|simpl; rewrite app_nil_r; reflexivity].
Qed.

(** The loop reads the clock as little as the generator does. *)
Lemma anext_clock e g w item g' w' :
  anext e g w = (item, g', w') -> clock_reads w' = clock_reads w.
Proof.
  assert (forall tf w0, clock_reads (cleanup e tf w0) = clock_reads w0) as Hc.
  { intros tf w0. unfold cleanup. by repeat case_match. }
  assert (forall f cs unread w0,
            read_next e f cs unread w0 = (item, g', w') ->
            clock_reads w' = clock_reads w0) as Hr.
  { intros f cs unread w0 H.
    apply read_next_inv in H as [(_ & _ & ->)|(c & r & _ & _ & _ & -> & _)];
      by rewrite ?Hc. }
  unfold anext. destruct g as [text cs| |f cs unread|f|tf|].
  - destruct (falsy (JStr text) || (len_strip text <? 1));
      [by intros [= _ _ <-]|].
    destruct (named_temporary_file e (temp_files w)) as [f|];
      [|by intros [= _ _ <-]].
    destruct (fs _ !! f) as [content|]; [|by intros [= _ _ <-]].
    intros H. by apply Hr in H.
  - by intros [= _ _ <-].
  - apply Hr.
  - intros H. assert (cleanup e (Some f) w = w') as <- by congruence.
    apply Hc.
  - intros H. assert (cleanup e tf w = w') as <- by congruence. apply Hc.
  - by intros [= _ _ <-].
Qed.

Lemma keeps_async_for_clock e fuel :
  forall g rid ci ts, keeps clock_reads (async_for e fuel g rid ci ts).
Proof.
  induction fuel as [|fuel IH]; intros g rid ci ts w r w'; simpl.
  - by intros [= <- <-].
  - destruct (anext e g w) as [[item g'] w1] eqn:Ha.
    apply anext_clock in Ha.
    destruct item as [[|b c]|].
    + intros H. apply IH in H. congruence.
    + destruct (send e _ w1) as [[[]|ex] w2] eqn:Hsend;
        apply send_inv in Hsend as [(_ & _ & ->)|(? & _ & _ & ->)].
      * intros Hl. apply IH in Hl. simpl in Hl. congruence.
      * intros Hl. apply IH in Hl. simpl in Hl. congruence.
      * intros [= <- <-]. simpl. congruence.
      * intros [= <- <-]. simpl. congruence.
    + intros [= <- <-]. done.
Qed.

Lemma total_concat blocks : total (map blen blocks) = blen (concat blocks).
Proof.
  induction blocks as [|b blocks IH]; [done|].
  cbn [map total fold_right concat]. fold (total (map blen blocks)).
  rewrite IH. unfold blen. by rewrite length_app, Nat2Z.inj_add.
Qed.

(** The frames of a call over a transport that accepts every write:
    the start, one chunk frame for each pending block of the generator, and
    the completion that counts them; the two timestamps are consecutive
    readings of the clock. *)
Lemma healthy_transcript e text rid w :
  (forall k, transport e k = None) ->
  let blocks := pending e (text_to_speech_stream text) w in
  frames_of (synthesize_and_stream e text rid) w =
  start_message rid text (loop_time e (clock_reads w))
  :: chunks_from e rid 0 0 blocks
  ++ [end_message rid (Z.of_nat (length blocks)) (blen (concat blocks))
        (loop_time e (S (clock_reads w)))].
Proof.
  intros Hnet blocks.
  unfold frames_of, synthesize_and_stream, try_except, stream, bind, time.
  rewrite send_accepted by apply Hnet.
  match goal with
  | |- context [async_for e ?f ?g ?r ?c ?t ?w0] =>
      destruct (async_for_healthy e Hnet f g r c t w0) as ([ci ts] & w2 & Hl);
      rewrite Hl;
      pose proof (keeps_async_for_clock _ _ _ _ _ _ _ _ _ Hl) as Hclock;
      apply async_for_pending in Hl as (bs & rest & Hp & Hs & -> & -> & ->);
      [|done]
  end.
  rewrite app_nil_r in Hp. change (pending _ _ _) with blocks in Hp.
  subst bs. simpl in Hs, Hclock.
  rewrite send_accepted by apply Hnet. simpl.
  rewrite Hclock, total_concat, !Z.add_0_l.
  apply emitted_app. simpl. by rewrite Hs, <- !app_assoc.
Qed.

Lemma guard_blank' s : falsy (JStr s) || (len_strip s <? 1) = blank s.
Proof.
  rewrite <- guard_blank. f_equal. unfold len_strip.
  destruct (Z.ltb_spec (Z.of_nat (length (strip s))) 1),
    (Z.eqb_spec (Z.of_nat (length (strip s))) 0); try done; lia.
Qed.










Lemma pending_bounds e text w :
  Forall (fun b => 0 < blen b <= settings.CHUNK_SIZE)
    (pending e (text_to_speech_stream text) w).
Proof.
  unfold text_to_speech_stream. cbn [pending].
  repeat case_match; try constructor. by apply read_all_bounds.
Qed.

Lemma chunks_from_lookup e rid blocks :
  forall ci ts i m,
    chunks_from e rid ci ts blocks !! i = Some m ->
    exists b, blocks !! i = Some b /\
              field "chunk_size" m = Some (JInt (blen b)).
Proof.
  induction blocks as [|b blocks IH]; intros ci ts i m; [done|].
  destruct i as [|i]; cbn [chunks_from].
  - intros [= <-]. by exists b.
  - intros H. cbn in H. by apply IH in H.
Qed.

(** X10.  In every call, however it ends, each [audio_chunk] frame carries
    a [chunk_size] of at least 1 and at most [CHUNK_SIZE], 4096: no empty
    chunk is sent and no chunk exceeds the configured size. *)
Theorem chunk_size_bounds e text rid w :
  Forall (fun m => exists n, field "chunk_size" m = Some (JInt n) /\
                             1 <= n <= settings.CHUNK_SIZE)
    (of_type "audio_chunk" (frames_of (synthesize_and_stream e text rid) w)).
Proof.
  destruct (synthesize_and_stream_pending e text rid w)
    as (blocks & rest & Hp & ->).
  pose proof (pending_bounds e text w) as Hb. rewrite Hp in Hb.
  apply Forall_app in Hb as [Hb _].
  apply Forall_lookup. intros i m Hi.
  apply chunks_from_lookup in Hi as (b & Hi & Hm).
  rewrite Forall_lookup in Hb. specialize (Hb _ _ Hi).
  exists (blen b). split; [done|]. lia.
Qed.

(** The [i]-th chunk frame is the frame of the [i]-th block: it carries the
    index of the block, counted on from [chunk_index], and the bytes of the
    blocks up to it, counted on from [total_size]. *)
Lemma chunks_from_nth e rid blocks :
  forall ci ts i m,
    chunks_from e rid ci ts blocks !! i = Some m ->
    exists b, blocks !! i = Some b /\
      m = chunk_message e rid (ci + Z.of_nat (S i)) b
            (ts + Z.of_nat (length (concat (take (S i) blocks)))).
Proof.
  induction blocks as [|b blocks IH]; intros ci ts i m; [done|].
  destruct i as [|i]; cbn [chunks_from].
  - intros [= <-]. exists b. split; [done|].
    cbn [take concat]. rewrite app_nil_r. unfold blen. f_equal; lia.
  - intros H. cbn in H. apply IH in H as (b' & Hb & ->).
    exists b'. split; [done|].
    cbn [take concat]. rewrite length_app. unfold blen. f_equal; lia.
Qed.

(** C3.  The [audio_chunk] frames of one call, however it ends, are the
    frames of the first blocks its generator yields, one frame a block and
    in their order: the [i]-th frame (counted from 1) has [chunk_index] [i],
    its payload is the encoding of the [i]-th block, its [chunk_size] is the
    number of bytes of that block, and its [total_size] is the number of
    bytes of the blocks 1 to [i] together. *)
Theorem chunk_sequence_bytes e text rid w :
  let chunks :=
    of_type "audio_chunk" (frames_of (synthesize_and_stream e text rid) w) in
  exists blocks rest,
    pending e (text_to_speech_stream text) w = blocks ++ rest /\
    length chunks = length blocks /\
    forall i m, chunks !! i = Some m ->
      exists b, blocks !! i = Some b /\
        field "chunk_index" m = Some (JInt (Z.of_nat (S i))) /\
        field "audio_data" m = Some (JStr (b64encode e b)) /\
        field "chunk_size" m = Some (JInt (Z.of_nat (length b))) /\
        field "total_size" m =
          Some (JInt (Z.of_nat (length (concat (take (S i) blocks))))).
Proof.
  intros chunks. unfold chunks.
  destruct (synthesize_and_stream_pending e text rid w)
    as (blocks & rest & Hp & ->).
  exists blocks, rest. split; [exact Hp|].
  split; [apply length_chunks_from|].
  intros i m Hi. apply chunks_from_nth in Hi as (b & Hb & ->).
  exists b. rewrite !Z.add_0_l. by repeat split.
Qed.



(** ** What a call does to the engine and to the files *)

Lemma cleanup_runs e tf w : engine_runs (cleanup e tf w) = engine_runs w.
Proof. unfold cleanup. by repeat case_match. Qed.

Lemma cleanup_other e tf w p :
  (forall f, tf = Some f -> f <> p) ->
  fs (cleanup e tf w) !! p = fs w !! p.
Proof.
  intros Hp. unfold cleanup. destruct tf as [f|]; [|done].
  repeat case_match; try done. simpl. apply lookup_delete_ne. by apply Hp.
Qed.

Lemma anext_started_runs e g w item g' w' :
  started g -> anext e g w = (item, g', w') ->
  engine_runs w' = engine_runs w.
Proof.
  intros Hg.
  destruct g as [| |f cs unread|f|tf|]; cbn [started anext] in *; try done.
  - by intros [= _ _ <-].
  - intros H.
    apply read_next_inv in H as [(_ & _ & ->)|(c & r & _ & _ & _ & -> & _)];
      by rewrite ?cleanup_runs.
  - intros H. assert (cleanup e (Some f) w = w') as <- by congruence.
    apply cleanup_runs.
  - intros H. assert (cleanup e tf w = w') as <- by congruence.
    apply cleanup_runs.
  - by intros [= _ _ <-].
Qed.

Lemma anext_started_other e g w item g' w' p :
  started g -> (forall f, owns g f -> f <> p) ->
  anext e g w = (item, g', w') ->
  fs w' !! p = fs w !! p /\ (forall f, owns g' f -> f <> p).
Proof.
  intros Hg Hp.
  destruct g as [| |f cs unread|f|tf|]; cbn [started anext] in *; try done.
  - by intros [= _ <- <-].
  - intros H.
    apply read_next_inv in H as [(_ & -> & ->)|(c & r & _ & _ & -> & -> & _)].
    + rewrite cleanup_other; [done|]. intros f' [= <-]. by apply Hp.
    + done.
  - intros H. assert (cleanup e (Some f) w = w') as <- by congruence.
    assert (Finished = g') as <- by congruence.
    rewrite cleanup_other; [done|]. intros f' [= <-]. by apply Hp.
  - intros H. assert (cleanup e tf w = w') as <- by congruence.
    assert (Finished = g') as <- by congruence.
    rewrite cleanup_other; [done|]. intros f' ->. by apply Hp.
  - by intros [= _ <- <-].
Qed.

Lemma async_for_started_runs e fuel :
  forall g rid ci ts w r w',
    started g -> async_for e fuel g rid ci ts w = (r, w') ->
    engine_runs w' = engine_runs w.
Proof.
  induction fuel as [|fuel IH]; intros g rid ci ts w r w' Hg; simpl.
  - by intros [= <- <-].
  - destruct (anext e g w) as [[item g'] w1] eqn:Ha.
    pose proof (anext_started _ _ _ _ _ _ Hg Ha) as [_ Hg'].
    apply (anext_started_runs _ _ _ _ _ _ Hg) in Ha.
    destruct item as [[|b c]|].
    + intros Hl. apply (IH _ _ _ _ _ _ _ Hg') in Hl. congruence.
    + destruct (send e _ w1) as [[[]|ex] w2] eqn:Hsend;
        apply send_inv in Hsend as [(_ & ? & ->)|(? & _ & ? & ->)]; try done.
      * intros Hl. apply (IH _ _ _ _ _ _ _ Hg') in Hl. simpl in Hl.
        congruence.
      * intros [= <- <-]. simpl. congruence.
    + intros [= <- <-]. done.
Qed.

Lemma async_for_started_other e p fuel :
  forall g rid ci ts w r w',
    started g -> (forall f, owns g f -> f <> p) ->
    async_for e fuel g rid ci ts w = (r, w') ->
    fs w' !! p = fs w !! p.
Proof.
  induction fuel as [|fuel IH]; intros g rid ci ts w r w' Hg Hp; simpl.
  - by intros [= <- <-].
  - destruct (anext e g w) as [[item g'] w1] eqn:Ha.
    pose proof (anext_started _ _ _ _ _ _ Hg Ha) as [_ Hg'].
    apply (anext_started_other _ _ _ _ _ _ p Hg Hp) in Ha as (Hf & Hp').
    destruct item as [[|b c]|].
    + intros Hl. apply (IH _ _ _ _ _ _ _ Hg' Hp') in Hl. congruence.
    + destruct (send e _ w1) as [[[]|ex] w2] eqn:Hsend;
        apply send_inv in Hsend as [(_ & ? & ->)|(? & _ & ? & ->)]; try done.
      * intros Hl. apply (IH _ _ _ _ _ _ _ Hg' Hp') in Hl. simpl in Hl.
        congruence.
      * intros [= <- <-]. simpl. congruence.
    + intros [= <- <-]. done.
Qed.

(** The three ways the first step of a generator can go. *)
Lemma anext_created_effects e text cs w item g' w' :
  anext e (Created text cs) w = (item, g', w') ->
  started g' /\
  ((blank text = true /\ w' = w /\ g' = AtBlank) \/
   (blank text = false /\ named_temporary_file e (temp_files w) = None /\
    temp_files w' = S (temp_files w) /\ engine_runs w' = engine_runs w /\
    fs w' = fs w /\ g' = AtError None) \/
   (blank text = false /\
    exists f, named_temporary_file e (temp_files w) = Some f /\
      temp_files w' = S (temp_files w) /\
      engine_runs w' = S (engine_runs w) /\
      (forall p, p <> f -> fs w' !! p = fs w !! p) /\
      (forall f', owns g' f' -> f' = f))).
Proof.
  cbn [anext]. rewrite guard_blank'.
  destruct (blank text); [intros [= <- <- <-]; split; [done|by left]|].
  destruct (named_temporary_file e (temp_files w)) as [f|];
    [|intros [= <- <- <-]; split; [done|right; by left]].
  set (w2 := synthesize e text f _).
  assert (temp_files w2 = S (temp_files w) /\
          engine_runs w2 = S (engine_runs w) /\
          forall p, p <> f -> fs w2 !! p = fs w !! p) as (Ht & Hr & Hf).
  { unfold w2, synthesize. simpl. repeat split. intros p Hp.
    destruct (artifact _).
    - by rewrite !lookup_insert_ne.
    - by rewrite lookup_delete_ne, lookup_insert_ne. }
  destruct (fs w2 !! f) as [content|].
  - intros H.
    apply read_next_inv in H as [(_ & -> & ->)|(c & r & _ & _ & -> & -> & _)].
    + split; [done|]. right. right. split; [done|]. exists f.
      rewrite cleanup_temp_files, cleanup_runs. repeat split; try done.
      intros p Hp. rewrite cleanup_other; [by apply Hf|].
      by intros f' [= <-].
    + split; [done|]. right. right. split; [done|]. by exists f.
  - intros [= <- <- <-]. split; [done|]. right. right. split; [done|].
    by exists f.
Qed.

(** One [websocket.send] in the goal: both outcomes, with the state each
    leaves. *)
Ltac step_send :=
  match goal with
  | |- context [send ?e ?m ?w0] =>
      let H := fresh "Hsend" in
      destruct (send e m w0) as [[[]|?] ?] eqn:H;
      apply send_inv in H as [(_ & ? & ->)|(? & _ & ? & ->)];
      try discriminate
  end.

(** What the loop over a started generator leaves of the state its first
    step produced. *)
Lemma async_for_after_first e fuel g rid ci ts w r w' :
  started g -> async_for e fuel g rid ci ts w = (r, w') ->
  temp_files w' = temp_files w /\ engine_runs w' = engine_runs w /\
  forall p, (forall f, owns g f -> f <> p) -> fs w' !! p = fs w !! p.
Proof.
  intros Hg Hl. repeat split.
  - by apply async_for_started in Hl.
  - by apply async_for_started_runs in Hl.
  - intros p Hp. by apply (async_for_started_other e p) in Hl.
Qed.

(** The same for a whole call. *)
Lemma synthesize_and_stream_effects e text rid w :
  let w' := snd (synthesize_and_stream e text rid w) in
  (temp_files w' = temp_files w /\ engine_runs w' = engine_runs w /\
   fs w' = fs w) \/
  (blank text = false /\ named_temporary_file e (temp_files w) = None /\
   temp_files w' = S (temp_files w) /\ engine_runs w' = engine_runs w /\
   fs w' = fs w) \/
  (blank text = false /\
   exists f, named_temporary_file e (temp_files w) = Some f /\
     temp_files w' = S (temp_files w) /\
     engine_runs w' = S (engine_runs w) /\
     forall p, p <> f -> fs w' !! p = fs w !! p).
Proof.
  intros w'.
  assert (forall w0 fuel rid' ci ts r w1,
    async_for e fuel (Created text settings.CHUNK_SIZE) rid' ci ts w0
      = (r, w1) ->
    (temp_files w1 = temp_files w0 /\ engine_runs w1 = engine_runs w0 /\
     fs w1 = fs w0) \/
    (blank text = false /\ named_temporary_file e (temp_files w0) = None /\
     temp_files w1 = S (temp_files w0) /\ engine_runs w1 = engine_runs w0 /\
     fs w1 = fs w0) \/
    (blank text = false /\
     exists f, named_temporary_file e (temp_files w0) = Some f /\
       temp_files w1 = S (temp_files w0) /\
       engine_runs w1 = S (engine_runs w0) /\
       forall p, p <> f -> fs w1 !! p = fs w0 !! p)) as Hloop.
  { intros w0 fuel rid' ci ts r w1 Hl.
    destruct fuel as [|fuel]; [injection Hl as <- <-; by left|].
    cbn [async_for] in Hl.
    destruct (anext e _ w0) as [[item g'] wa] eqn:Ha.
    apply anext_created_effects in Ha as [Hg' Hcase].
    assert (temp_files w1 = temp_files wa /\
            engine_runs w1 = engine_runs wa /\
            forall p, (forall f, owns g' f -> f <> p) ->
                      fs w1 !! p = fs wa !! p) as (Ht & Hr & Hf).
    { destruct item as [[|b c]|].
      - by apply async_for_after_first in Hl.
      - destruct (send e _ wa) as [[[]|ex] w2] eqn:Hsend;
          apply send_inv in Hsend as [(_ & ? & ->)|(? & _ & ? & ->)];
          try done.
        + by apply async_for_after_first in Hl.
        + by injection Hl as <- <-.
      - by injection Hl as <- <-. }
    destruct Hcase as [(Hb & -> & ->)|[(Hb & Hn & Ht' & Hr' & Hf' & ->)
                                      |(Hb & f & Hn & Ht' & Hr' & Hf' & Ho)]].
    - left. repeat split; try done. apply map_eq. intros p. by apply Hf.
    - right. left. repeat split; try congruence.
      apply map_eq. intros p. rewrite <- Hf'. by apply Hf.
    - right. right. split; [done|]. exists f. repeat split; try congruence.
      intros p Hp. rewrite <- (Hf' p Hp). apply Hf.
      intros f' Hf'' ->. apply Hp. by apply Ho. }
  unfold w', synthesize_and_stream, try_except, stream, bind, time.
  step_send.
  - destruct (async_for _ _ _ _ _ _ _) as [[[ci ts]|ex] w2] eqn:H2;
      apply Hloop in H2; simpl in H2; repeat step_send; exact H2.
  - repeat step_send; by left.
Qed.

(** X12.  A call of [synthesize_and_stream] makes at most one scratch file
    and runs the engine at most once, and it runs the engine only for a
    text that is not blank and after the scratch file has been made. *)
Theorem at_most_one_engine_run e text rid w :
  let w' := snd (synthesize_and_stream e text rid w) in
  (temp_files w <= temp_files w' <= S (temp_files w))%nat /\
  (engine_runs w <= engine_runs w' <= S (engine_runs w))%nat /\
  (engine_runs w' = S (engine_runs w) ->
   temp_files w' = S (temp_files w) /\ blank text = false /\
   is_Some (named_temporary_file e (temp_files w))).
Proof.
  intros w'.
  destruct (synthesize_and_stream_effects e text rid w)
    as [(Ht & Hr & _)|[(Hb & Hn & Ht & Hr & _)|(Hb & f & Hn & Ht & Hr & _)]];
    fold w' in Ht, Hr; rewrite Ht, Hr;
    (split; [lia|]); (split; [lia|]); intros Hone; try lia.
  by rewrite Hn.
Qed.

(** X13.  The log file apart, a call touches no file but its own scratch
    file: every other path, the scratch file of another request for one,
    holds after the call what it held before. *)
Theorem other_files_untouched e text rid w p :
  p <> LOG_FILE ->
  named_temporary_file e (temp_files w) <> Some p ->
  fs (snd (synthesize_and_stream e text rid w)) !! p = fs w !! p.
Proof.
  intros _ Hp.
  destruct (synthesize_and_stream_effects e text rid w)
    as [(_ & _ & Hf)|[(_ & _ & _ & _ & Hf)|(_ & f & Hn & _ & _ & Hf)]].
  - by rewrite Hf.
  - by rewrite Hf.
  - apply Hf. intros ->. by apply Hp.
Qed.

Lemma other_files_untouched_witness :
  let e := demo engine_ok healthy true in
  fs (snd (synthesize_and_stream e "hello" (JStr "r1")
             (with_fs (<["/tmp/tmp7.wav" := [Byte.x78]]> ∅) boot)))
    !! "/tmp/tmp7.wav" =
  fs (with_fs (<["/tmp/tmp7.wav" := [Byte.x78]]> ∅) boot)
    !! "/tmp/tmp7.wav".
Proof.
  intros e.
  apply (other_files_untouched e "hello" (JStr "r1")
           (with_fs (<["/tmp/tmp7.wav" := [Byte.x78]]> ∅) boot)
           "/tmp/tmp7.wav").
  - unfold LOG_FILE. discriminate.
  - discriminate.
Defined.





(** ** Properties of every frame *)

Section SessionFrames.

(** A property that holds of the seven messages the code builds holds of
    every frame of a session. *)
Context (e : Env) (P : json -> Prop).
Context (Hwelcome : forall id t, P (welcome_msg e id t)).
Context (Hvoice : forall rid t, P (voice_info_response e rid t)).
Context (Hpong : forall rid t, P (pong_response rid t)).
Context (Herror : forall rid msg t, P (error_message rid msg t)).
Context (Hstart : forall rid text t, P (start_message rid text t)).
Context (Hchunk : forall rid ci b ts, P (chunk_message e rid ci b ts)).
Context (Hend : forall rid ci ts t, P (end_message rid ci ts t)).

Lemma frames_chunks rid ci ts blocks :
  Forall P (chunks_from e rid ci ts blocks).
Proof.
  revert ci ts. induction blocks as [|b blocks IH]; intros ci ts; simpl;
    constructor; [apply Hchunk|apply IH].
Qed.

Lemma frames_synthesize_and_stream text rid :
  sends_only P (synthesize_and_stream e text rid).
Proof.
  intros w r w' H. apply synthesize_and_stream_spec in H as (out & Hs & Ht).
  exists out. split; [done|].
  assert (forall r' out', stream_trace e text rid r' out' -> Forall P out')
    as Hst.
  { intros r' out' [blocks t0 t1|ex|blocks t0 ex].
    - constructor; [apply Hstart|]. apply Forall_app. split.
      + apply frames_chunks.
      + constructor; [apply Hend|constructor].
    - constructor.
    - constructor; [apply Hstart|apply frames_chunks]. }
  destruct Ht as [o Ht|o ex t Ht|o ex ex' Ht]; apply Hst in Ht; try done.
  apply Forall_app. split; [done|]. constructor; [apply Herror|constructor].
Qed.

Lemma frames__send_error msg rid : sends_only P (_send_error e msg rid).
Proof.
  apply sends_only_bind; [apply sends_only_time|].
  intros t. apply sends_only_send, Herror.
Qed.

Lemma frames__handle_synthesis_request text rid :
  sends_only P (_handle_synthesis_request e text rid).
Proof.
  unfold _handle_synthesis_request.
  destruct text; repeat case_match;
    auto using frames__send_error, frames_synthesize_and_stream,
      @sends_only_raise.
Qed.

Lemma frames__handle_message message :
  sends_only P (_handle_message e message).
Proof.
  apply sends_only_try_except.
  - unfold dispatch.
    apply sends_only_bind.
    { destruct (json_loads e message);
        auto using @sends_only_raise, @sends_only_ret. }
    intros data. apply sends_only_bind; [apply sends_only_get|].
    intros message_type. apply sends_only_bind; [apply sends_only_new_uuid|].
    intros fresh. apply sends_only_bind; [apply sends_only_get|].
    intros request_id. apply sends_only_bind; [apply sends_only_get|].
    intros text. repeat case_match.
    + apply frames__handle_synthesis_request.
    + apply sends_only_bind; [apply sends_only_time|].
      intros t. apply sends_only_send, Hvoice.
    + apply sends_only_bind; [apply sends_only_time|].
      intros t. apply sends_only_send, Hpong.
    + apply frames__send_error.
  - intros ex. destruct ex; apply frames__send_error.
Qed.

Lemma frames_receive_loop inbound : sends_only P (receive_loop e inbound).
Proof.
  induction inbound as [|message inbound IH]; simpl.
  - apply sends_only_ret.
  - apply sends_only_bind; [apply frames__handle_message|done].
Qed.

Lemma frames_handle_connection inbound w :
  Forall P (frames_of (handle_connection e inbound) w).
Proof.
  assert (sends_only P (handle_connection e inbound)) as H.
  { unfold handle_connection.
    apply sends_only_bind; [apply sends_only_new_uuid|]. intros connection_id.
    apply sends_only_bind; [apply sends_only_time|]. intros connected_at.
    apply sends_only_bind.
    { intros w0 r w0' [= <- <-]. exists []. simpl. by rewrite app_nil_r. }
    intros _. apply sends_only_try_finally; [|done].
    apply sends_only_try_except; [|intros; apply sends_only_ret].
    apply sends_only_bind; [|intros; apply frames_receive_loop].
    apply sends_only_bind; [apply sends_only_time|].
    intros t. apply sends_only_send, Hwelcome. }
  unfold frames_of.
  destruct (handle_connection e inbound w) as [r w'] eqn:Hr.
  apply H in Hr as (out & Hs & Hp). simpl.
  by rewrite (emitted_app _ _ _ Hs).
Qed.

End SessionFrames.

(** X16.  No [audio_chunk] frame of a session is ever marked as the last
    one: [is_final] is [false] on every chunk, the last of a stream
    included. *)
Theorem is_final_never_set e inbound w :
  Forall (fun m => field "is_final" m = Some (JBool false))
    (of_type "audio_chunk" (frames_of (handle_connection e inbound) w)).
Proof.
  apply Forall_forall. intros m Hin.
  apply list_elem_of_In, List.filter_In in Hin as [Hin Hty].
  pose proof (frames_handle_connection e
    (fun m => is_type "audio_chunk" m = true ->
              field "is_final" m = Some (JBool false))) as H.
  eapply Forall_forall in H; [by apply H| | | | | | | |]; try done.
  by apply list_elem_of_In.
Qed.

(** X17.  Every frame a [synthesize] request with a string as text gets,
    whether the request is rejected, streamed to its end or aborted by a
    refused write, carries the request id of the request. *)
Theorem request_id_echoed e s rid w :
  Forall (fun m => field "request_id" m = Some rid)
    (frames_of (_handle_synthesis_request e (JStr s) rid) w).
Proof.
  assert (sends_only (fun m => field "request_id" m = Some rid)
            (_handle_synthesis_request e (JStr s) rid)) as H.
  { unfold _handle_synthesis_request. repeat case_match.
    - apply sends_only_bind; [apply sends_only_time|].
      intros t. by apply sends_only_send.
    - apply sends_only_bind; [apply sends_only_time|].
      intros t. by apply sends_only_send.
    - intros w0 r w0' Hr.
      apply synthesize_and_stream_spec in Hr as (out & Hs & Ht).
      exists out. split; [done|].
      assert (forall ci ts blocks,
                Forall (fun m => field "request_id" m = Some rid)
                  (chunks_from e rid ci ts blocks)) as Hc.
      { intros ci ts blocks. revert ci ts.
        induction blocks as [|b blocks IH]; intros ci ts; simpl;
          constructor; [done|apply IH]. }
      assert (forall r' out', stream_trace e s rid r' out' ->
                Forall (fun m => field "request_id" m = Some rid) out')
        as Hst.
      { intros r' out' [blocks t0 t1|ex|blocks t0 ex].
        - constructor; [done|]. apply Forall_app. split; [apply Hc|].
          by constructor.
        - constructor.
        - constructor; [done|apply Hc]. }
      destruct Ht as [o Ht|o ex t Ht|o ex ex' Ht]; apply Hst in Ht;
        try done.
      apply Forall_app. split; [done|]. by constructor. }
  unfold frames_of.
  destruct (_handle_synthesis_request e (JStr s) rid w) as [r w'] eqn:Hr.
  apply H in Hr as (out & Hs & Hp). simpl.
  by rewrite (emitted_app _ _ _ Hs).
Qed.

(** ** Voices *)

Lemma enumerate_voices_lookup vs :
  forall i0 i v,
    vs !! i = Some v ->
    enumerate_voices i0 vs !! i =
    Some (JObj [("id", JInt (i0 + Z.of_nat i)); ("name", JStr (voice_name v))]).
Proof.
  induction vs as [|v0 vs IH]; intros i0 i v; [done|].
  destruct i as [|i]; simpl.
  - intros [= <-]. by rewrite Z.add_0_r.
  - intros H. rewrite (IH _ _ _ H). do 5 f_equal. lia.
Qed.

Lemma length_enumerate_voices vs i0 :
  length (enumerate_voices i0 vs) = length vs.
Proof. revert i0. induction vs as [|v vs IH]; intros i0; simpl; auto. Qed.

(** X18.  [get_voice_info] lists every voice of the engine once and in the
    engine's order: [available_voices] is their number, and the entry at
    position [i] of [voices] has [id] [i] and the name of the [i]-th
    voice. *)
Theorem voice_info_lists_every_voice e self :
  field "available_voices" (get_voice_info e self) =
    Some (JInt (Z.of_nat (length (voices e)))) /\
  exists l,
    field "voices" (get_voice_info e self) = Some (JList l) /\
    length l = length (voices e) /\
    forall i v, voices e !! i = Some v ->
      l !! i = Some (JObj [("id", JInt (Z.of_nat i));
                           ("name", JStr (voice_name v))]).
Proof.
  split; [done|]. exists (enumerate_voices 0 (voices e)).
  split; [done|]. split; [apply length_enumerate_voices|].
  intros i v H. by rewrite (enumerate_voices_lookup _ 0 _ _ H).
Qed.

(** X19.  The [current_voice] of [get_voice_info], for a voice index that
    is not negative: the name of the voice at that index when the engine
    has that many voices, and the string [Unknown] when it has not (in
    particular when it has none). *)
Theorem current_voice_or_unknown e self :
  0 <= voice_index self ->
  field "current_voice" (get_voice_info e self) =
  Some (JStr (match voices e !! Z.to_nat (voice_index self) with
              | Some v => voice_name v
              | None => "Unknown"
              end)).
Proof.
  intros Hi. unfold get_voice_info. cbn [field assoc String.eqb Ascii.eqb Bool.eqb].
  do 2 f_equal. unfold subscript.
  assert ((voice_index self <? 0) = false) as -> by lia.
  destruct (voices e) as [|v vs] eqn:Hv.
  - done.
  - rewrite bool_decide_eq_false_2 by done. cbn [negb andb].
    destruct (Z.of_nat (length (v :: vs)) >? voice_index self) eqn:Hlen;
      [done|].
    rewrite lookup_ge_None_2; [done|]. lia.
Qed.

Lemma current_voice_or_unknown_witness :
  let e := demo engine_ok healthy true in
  field "current_voice" (get_voice_info e tts_engine) =
  Some (JStr (match voices e !! Z.to_nat (voice_index tts_engine) with
              | Some v => voice_name v
              | None => "Unknown"
              end)).
Proof.
  intros e. apply (current_voice_or_unknown e tts_engine). done.
Defined.

(** ** Shutdown on Windows *)

(** X20.  On Windows the shutdown handler of a running service stops the
    engine and calls [sys.exit(0)]: the process ends with status 0 and no
    client is served any more. *)
Theorem shutdown_exits_on_windows e inbound w :
  is_running w = true ->
  let w' := graceful_shutdown Windows w in
  engine_stopped w' = true /\
  is_running w' = false /\
  exit_status w' = Some 0 /\
  connect e inbound w' = None.
Proof.
  intros Hrun w'. unfold w', graceful_shutdown, connect, accepting.
  rewrite Hrun. simpl. by rewrite andb_false_r.
Qed.

Lemma shutdown_exits_on_windows_witness :
  let e := demo engine_ok healthy true in
  let w' := graceful_shutdown Windows (run boot) in
  engine_stopped w' = true /\
  is_running w' = false /\
  exit_status w' = Some 0 /\
  connect e ["<ping X>"] w' = None.
Proof.
  intros e. apply (shutdown_exits_on_windows e ["<ping X>"] (run boot)).
  reflexivity.
Defined.

(** ** The client against the server *)

Lemma client_loop_start e rid text t rest :
  client_loop e (start_message rid text t :: rest) =
  ("synthesis_start" :: fst (client_loop e rest), snd (client_loop e rest)).
Proof.
  cbn [client_loop]. change (field "type" (start_message rid text t))
    with (Some (JStr "synthesis_start")).
  change (eq_str (JStr "synthesis_start") "synthesis_complete") with false.
  cbn [format]. by destruct (client_loop e rest).
Qed.

Lemma client_loop_chunks e rid blocks :
  forall ci ts rest,
    client_loop e (chunks_from e rid ci ts blocks ++ rest) =
    (repeat "audio_chunk" (length blocks) ++ fst (client_loop e rest),
     snd (client_loop e rest)).
Proof.
  induction blocks as [|b blocks IH]; intros ci ts rest.
  - simpl. by destruct (client_loop e rest).
  - cbn [chunks_from app client_loop length repeat].
    change (field "type" (chunk_message e rid (ci + 1) b (ts + blen b)))
      with (Some (JStr "audio_chunk")).
    change (eq_str (JStr "audio_chunk") "synthesis_complete") with false.
    cbn [format]. by rewrite IH.
Qed.

(** The request of the client is a valid one; the server streams it. *)
Lemma client_request_handled e message w :
  (forall k, transport e k = None) ->
  json_loads e message = Some request ->
  exists w' blocks t0 t1,
    _handle_message e message w = (Ok tt, w') /\
    sent w' = sent w ++
      start_message (JStr "test_001")
        "这是一个测试文本，用于验证语音合成服务是否正常工作。" t0
      :: chunks_from e (JStr "test_001") 0 0 blocks
      ++ [end_message (JStr "test_001") (Z.of_nat (length blocks))
            (blen (concat blocks)) t1].
Proof.
  intros Hnet Hdata. unfold request in Hdata.
  set (text := "这是一个测试文本，用于验证语音合成服务是否正常工作。") in *.
  set (w0 := with_uuids (S (uuids w)) w).
  destruct (synthesize_and_stream e text (JStr "test_001") w0)
    as [r w'] eqn:Hrun.
  pose proof (engine_outcome_not_reported e text (JStr "test_001") w0 Hnet)
    as (Hok & _).
  pose proof (healthy_transcript e text (JStr "test_001") w0 Hnet) as Hfr.
  cbn zeta in Hfr. unfold frames_of in Hfr.
  rewrite Hrun in Hok, Hfr. simpl in Hok, Hfr. subst r.
  pose proof Hrun as Hspec.
  apply synthesize_and_stream_spec in Hspec as (out & Hs & _).
  rewrite (emitted_app _ _ _ Hs) in Hfr. subst out.
  exists w'. eexists _, _, _. split; [|exact Hs].
  apply _handle_message_ok. rewrite (dispatch_object _ _ _ _ Hdata).
  cbn zeta. fold w0.
  change (default (JStr "") (assoc "type" _)) with (JStr "synthesize").
  change (default (JStr (uuid4 e (uuids w))) (assoc "request_id" _))
    with (JStr "test_001").
  change (default (JStr "") (assoc "text" _)) with (JStr text).
  change (eq_str (JStr "synthesize") "synthesize") with true.
  cbn iota. unfold _handle_synthesis_request.
  assert (falsy (JStr text) || (len_strip text =? 0) = false) as ->
    by (vm_compute; reflexivity).
  assert ((len text >? 10000) = false) as -> by (vm_compute; reflexivity).
  exact Hrun.
Qed.

(** X21.  The test client against the server, over a transport that
    accepts every write: after the welcome it is sent [synthesis_start],
    then [audio_chunk] frames, then [synthesis_complete], and ends at its
    [break] without having met a frame it cannot read. *)
Theorem client_completes e message w :
  (forall k, transport e k = None) ->
  json_loads e message = Some request ->
  exists n,
    test_tts_service e (frames_of (handle_connection e [message]) w) =
    ("synthesis_start" :: repeat "audio_chunk" n ++ ["synthesis_complete"],
     Completed).
Proof.
  intros Hnet Hdata. unfold frames_of, handle_connection.
  rewrite (bind_ok (new_uuid e) _ w _ _ eq_refl).
  rewrite (bind_ok (time e) _ _ _ _ eq_refl).
  match goal with
  | |- context [bind ?c ?k ?w0] => rewrite (bind_ok c k w0 tt _ eq_refl)
  end.
  unfold try_finally, try_except.
  match goal with
  | |- context [bind (_send_welcome_message e ?i) ?k ?w0] =>
      rewrite (bind_ok (_send_welcome_message e i) k w0 tt
                 (with_sent (sent w0 ++ [welcome_msg e i
                                           (loop_time e (clock_reads w0))])
                    (S (writes w0))
                    (with_clock_reads (S (clock_reads w0)) w0)))
  end.
  2: { unfold _send_welcome_message, bind, time.
       by rewrite send_accepted by apply Hnet. }
  cbn [receive_loop].
  match goal with
  | |- context [bind (_handle_message e message) ?k ?w0] =>
      destruct (client_request_handled e message w0 Hnet Hdata)
        as (w' & blocks & t0 & t1 & Hm & Hs);
      rewrite (bind_ok _ k w0 tt w' Hm)
  end.
  exists (length blocks). simpl in Hs. cbn [ret fst snd sent with_active_connections].
  erewrite emitted_app; [|simpl; rewrite Hs, <- app_assoc; reflexivity].
  cbn [app test_tts_service].
  rewrite client_loop_start, client_loop_chunks. reflexivity.
Qed.

Lemma client_completes_witness :
  let e := demo_more engine_ok healthy true in
  exists n,
    test_tts_service e
      (frames_of (handle_connection e ["<client request>"]) boot) =
    ("synthesis_start" :: repeat "audio_chunk" n ++ ["synthesis_complete"],
     Completed).
Proof.
  intros e. apply (client_completes e "<client request>" boot); reflexivity.
Defined.

(** X23.  The limit is inclusive: a text that is not blank and has at
    most 10000 characters passes the validation, and the handler does
    exactly what [synthesize_and_stream] does with it. *)
Theorem valid_text_is_streamed e s rid w :
  blank s = false ->
  len s <= 10000 ->
  _handle_synthesis_request e (JStr s) rid w =
  synthesize_and_stream e s rid w.
Proof.
  intros Hb Hlen. unfold _handle_synthesis_request.
  rewrite guard_blank, Hb.
  by assert ((len s >? 10000) = false) as -> by lia.
Qed.

Lemma valid_text_is_streamed_witness :
  let e := demo engine_ok healthy true in
  let s := string_of_list_ascii (repeat "a"%char (Z.to_nat 10000)) in
  _handle_synthesis_request e (JStr s) (JStr "r1") boot =
  synthesize_and_stream e s (JStr "r1") boot.
Proof.
  intros e s.
  apply (valid_text_is_streamed e s (JStr "r1") boot);
    vm_compute; [reflexivity|discriminate].
Defined.

(** X24.  The shutdown handler is idempotent: a second signal changes
    nothing, and a signal that finds the service not running does nothing
    at all (the engine is not stopped again). *)
Theorem repeated_signal p w :
  graceful_shutdown p (graceful_shutdown p w) = graceful_shutdown p w /\
  (is_running w = false -> graceful_shutdown p w = w).
Proof.
  split.
  - unfold graceful_shutdown. destruct (is_running w) eqn:H; [|by rewrite H].
    by destruct p.
  - intros H. unfold graceful_shutdown. by rewrite H.
Qed.
